(** * A verified model of the [dsa] repository

  Two source files are embedded here:

  - [data-structures/dymanic_array/dynamic_array.py]: the class
    [DynamicArray] (module [DynArr]);
  - [algorithms/strings/string_utility_methods.py]: [is_palindrome] and
    [remove_duplicates] (module [StrUtil]).

  Python integers are unbounded, so indices, [size] and [capacity] are in
  [Z].  A Python list is a [list]; subscripting follows Python: a negative
  subscript counts from the end, and a subscript outside
  [-len, len) raises [IndexError].  Methods of the class run in a state and
  error monad over the object's three fields: an exception leaves the
  fields as they were when it was raised. *)

From Stdlib Require Import ZArith Lia Ascii.
From stdpp Require Import base tactics option list numbers gmap strings pretty.

Local Open Scope Z_scope.

(** ** Python lists *)

Module PyList.

(** The position a subscript [i] denotes in a list of length [n]. *)
Definition norm_index (n i : Z) : option nat :=
  if bool_decide (0 ≤ i < n) then Some (Z.to_nat i)
  else if bool_decide (- n ≤ i < 0) then Some (Z.to_nat (n + i))
  else None.

(** [l[i]]; [None] stands for [IndexError]. *)
Definition getitem {A} (l : list A) (i : Z) : option A :=
  k ← norm_index (Z.of_nat (List.length l)) i; l !! k.

(** [l[i] = x]; [None] stands for [IndexError]. *)
Definition setitem {A} (l : list A) (i : Z) (x : A) : option (list A) :=
  k ← norm_index (Z.of_nat (List.length l)) i; Some (<[k := x]> l).

(** [[x] * n]: the empty list when [n <= 0]. *)
Definition repeat {A} (x : A) (n : Z) : list A := replicate (Z.to_nat n) x.

(** [range(a, b)]. *)
Definition range (a b : Z) : list Z :=
  (λ k : nat, a + Z.of_nat k) <$> seq 0 (Z.to_nat (b - a)).

End PyList.

(** ** Outcomes of a call *)

Inductive exn : Type :=
| IndexError
| FuelExhausted.

Inductive outcome (A : Type) : Type :=
| Returned (a : A)
| Raised (e : exn).
Arguments Returned {A} a.
Arguments Raised {A} e.

(** ** The class [DynamicArray] *)

Module DynArr.

Section WithElements.

(** The non-[None] Python values stored in the array.  A slot is an
    [option T]: [None] is Python's [None], which the class also uses as
    the placeholder of an unused slot. *)
Context {T : Type}.

Abbreviation value := (option T).

Record DynamicArray : Type := mkDA {
  capacity : Z;
  size : Z;
  data : list value
}.

(** *** The monad of methods: state [self], result or exception *)

Definition M (A : Type) : Type := DynamicArray → outcome A * DynamicArray.

Definition ret {A} (a : A) : M A := λ self, (Returned a, self).

Definition bind {A B} (m : M A) (k : A → M B) : M B :=
  λ self,
    match m self with
    | (Returned a, self') => k a self'
    | (Raised e, self') => (Raised e, self')
    end.

Definition raise {A} (e : exn) : M A := λ self, (Raised e, self).

Definition get_capacity : M Z := λ self, (Returned (capacity self), self).
Definition get_size : M Z := λ self, (Returned (size self), self).
Definition get_data : M (list value) := λ self, (Returned (data self), self).

Definition set_capacity (c : Z) : M unit :=
  λ self, (Returned tt, mkDA c (size self) (data self)).
Definition set_size (n : Z) : M unit :=
  λ self, (Returned tt, mkDA (capacity self) n (data self)).
Definition set_data (l : list value) : M unit :=
  λ self, (Returned tt, mkDA (capacity self) (size self) l).

(** A list subscript that fails raises [IndexError]. *)
Definition subscript {A} (o : option A) : M A :=
  match o with
  | Some a => ret a
  | None => raise IndexError
  end.

Notation "x <- m ;; k" := (bind m (λ x, k))
  (at level 100, m at next level, right associativity).
Notation "m ;; k" := (bind m (λ _, k))
  (at level 100, right associativity).

(** [self.data[i]] *)
Definition data_get (i : Z) : M value :=
  l <- get_data ;; subscript (PyList.getitem l i).

(** [self.data[i] = x] *)
Definition data_set (i : Z) (x : value) : M unit :=
  l <- get_data ;; l' <- subscript (PyList.setitem l i x) ;; set_data l'.

(** [for i in is: body], with a local variable of the enclosing method
    threaded through the body. *)
Fixpoint for_ {A L} (l : list A) (body : A → L → M L) (acc : L) : M L :=
  match l with
  | [] => ret acc
  | i :: l' => acc' <- body i acc ;; for_ l' body acc'
  end.

(** *** [__init__] *)
Definition init : DynamicArray :=
  let capacity := 2 in
  mkDA capacity 0 (PyList.repeat None capacity).

(** *** [_resize] *)
Definition _resize : M unit :=
  c <- get_capacity ;;
  set_capacity (c * 2) ;;
  c <- get_capacity ;;
  let new_data := PyList.repeat (None : value) c in
  n <- get_size ;;
  new_data <- for_ (PyList.range 0 n)
               (λ i new_data,
                  x <- data_get i ;; subscript (PyList.setitem new_data i x))
               new_data ;;
  set_data new_data.

(** *** [append] *)
Definition append (element : value) : M unit :=
  n <- get_size ;;
  c <- get_capacity ;;
  (if bool_decide (n = c) then _resize else ret tt) ;;
  n <- get_size ;;
  data_set n element ;;
  n <- get_size ;;
  set_size (n + 1).

(** The loop of [insert]:
    [while i >= index: self.data[i + 1] = self.data[i]; i -= 1].
    Each iteration costs one unit of fuel. *)
Fixpoint insert_shift (fuel : nat) (index i : Z) : M unit :=
  if bool_decide (i >= index) then
    match fuel with
    | O => raise FuelExhausted
    | S fuel' =>
        x <- data_get i ;;
        data_set (i + 1) x ;;
        insert_shift fuel' index (i - 1)
    end
  else ret tt.

(** *** [insert]

    The loop starts at [i = size - 1] and steps down to [index]: it is
    given [size - index] iterations' worth of fuel, taken after the
    growth (which leaves [size] as it is). *)
Definition insert (index : Z) (element : value) : M unit :=
  n <- get_size ;;
  (if bool_decide (index < 0) || bool_decide (index > n)
   then raise IndexError else ret tt) ;;
  c <- get_capacity ;;
  (if bool_decide (n = c) then _resize else ret tt) ;;
  n <- get_size ;;
  let i := n - 1 in
  insert_shift (Z.to_nat (n - index)) index i ;;
  data_set index element ;;
  n <- get_size ;;
  set_size (n + 1).

(** *** [delete] *)
Definition delete (index : Z) : M value :=
  n <- get_size ;;
  (if bool_decide (index < 0) || bool_decide (index >= n)
   then raise IndexError else ret tt) ;;
  deleted_element <- data_get index ;;
  n <- get_size ;;
  for_ (PyList.range index (n - 1))
    (λ i (_ : unit), x <- data_get (i + 1) ;; data_set i x) tt ;;
  n <- get_size ;;
  set_size (n - 1) ;;
  n <- get_size ;;
  data_set n None ;;
  ret deleted_element.

(** *** [get] *)
Definition get (index : Z) : M value :=
  n <- get_size ;;
  (if bool_decide (index < 0) || bool_decide (index >= n)
   then raise IndexError else ret tt) ;;
  data_get index.

End WithElements.

Arguments DynamicArray T : clear implicits.
Arguments M T A : clear implicits.

(** *** Sequences of public calls

    A caller that catches [IndexError] goes on with the object as the failed
    call left it. *)

Inductive op (T : Type) : Type :=
| Append (element : option T)
| Insert (index : Z) (element : option T)
| Delete (index : Z)
| Get (index : Z).
Arguments Append {T} element.
Arguments Insert {T} index element.
Arguments Delete {T} index.
Arguments Get {T} index.

(** A method without [return] returns [None]. *)
Definition returns_None {T} (r : outcome unit * DynamicArray T)
  : outcome (option T) * DynamicArray T :=
  match r with
  | (Returned _, self) => (Returned None, self)
  | (Raised e, self) => (Raised e, self)
  end.

Definition call {T} (o : op T) (self : DynamicArray T)
  : outcome (option T) * DynamicArray T :=
  match o with
  | Append element => returns_None (append element self)
  | Insert index element => returns_None (insert index element self)
  | Delete index => delete index self
  | Get index => get index self
  end.

Definition run {T} (ops : list (op T)) (self : DynamicArray T)
  : DynamicArray T :=
  foldl (λ self o, (call o self).2) self ops.

(** The states of a [DynamicArray]: those a sequence of public calls
    produces from a freshly constructed object. *)
Definition reachable {T} (self : DynamicArray T) : Prop :=
  ∃ ops, self = run ops init.

(** The array of [test_dynamic_array] after its three appends. *)
Definition test_array : DynamicArray Z :=
  run [Append (Some 10); Append (Some 20); Append (Some 30)] init.

(** The representation invariant: the buffer has [capacity] slots, [size]
    of them in use, and [capacity] is [2] doubled some number of times. *)
Definition wf {T} (self : DynamicArray T) : Prop :=
  Z.of_nat (List.length (data self)) = capacity self
  ∧ 0 ≤ size self ≤ capacity self
  ∧ ∃ k : nat, (1 ≤ k)%nat ∧ capacity self = 2 ^ Z.of_nat k.

(** The logical sequence: the slots [[0, size)]. *)
Definition contents {T} (self : DynamicArray T) : list (option T) :=
  take (Z.to_nat (size self)) (data self).

(** *** [__str__]

    [str] of an element is a parameter for the values other than [None];
    [str] of an integer is its decimal writing. *)

Section Rendering.

Context {T : Type} (str_elem : T → string).

Notation "x <- m ;; k" := (bind m (λ x, k))
  (at level 100, m at next level, right associativity).

Definition str_value (x : option T) : string :=
  match x with
  | None => "None"
  | Some t => str_elem t
  end.

Definition __str__ : M T string :=
  n <- get_size ;;
  elements <- for_ (PyList.range 0 n)
                (λ i (elements : list string),
                   x <- data_get i ;; ret (elements ++ [str_value x]))
                [] ;;
  c <- get_capacity ;;
  n <- get_size ;;
  let empty_slots := PyList.repeat "_" (c - n) in
  n <- get_size ;;
  c <- get_capacity ;;
  ret ("[" +:+ String.concat ", " (elements ++ empty_slots)
       +:+ "] (size: " +:+ pretty n +:+ ", capacity: " +:+ pretty c +:+ ")").

End Rendering.

(** *** The array as a Python list

    What the same calls do to a plain sequence: [append] adds at the end,
    [insert] and [delete] act at a position inside their valid range and do
    nothing outside it, [get] changes nothing. *)
Definition list_call {T} (o : op T) (l : list (option T)) : list (option T) :=
  match o with
  | Append element => l ++ [element]
  | Insert index element =>
      if bool_decide (0 ≤ index ≤ Z.of_nat (List.length l))
      then take (Z.to_nat index) l ++ element :: drop (Z.to_nat index) l
      else l
  | Delete index =>
      if bool_decide (0 ≤ index < Z.of_nat (List.length l))
      then take (Z.to_nat index) l ++ drop (S (Z.to_nat index)) l
      else l
  | Get _ => l
  end.

(** What the same calls return on a plain sequence, with the bounds checks
    of the class. *)
Definition list_result {T} (o : op T) (l : list (option T))
  : outcome (option T) :=
  match o with
  | Append _ => Returned None
  | Insert index _ =>
      if bool_decide (0 ≤ index ≤ Z.of_nat (List.length l))
      then Returned None else Raised IndexError
  | Delete index | Get index =>
      if bool_decide (0 ≤ index < Z.of_nat (List.length l))
      then match l !! Z.to_nat index with
           | Some x => Returned x
           | None => Raised IndexError
           end
      else Raised IndexError
  end.

End DynArr.

(** ** The string utilities *)

Module StrUtil.

Definition obind {A B} (m : outcome A) (k : A → outcome B) : outcome B :=
  match m with
  | Returned a => k a
  | Raised e => Raised e
  end.

(** [s[i]] on a string. *)
Definition char_at {C} (s : list C) (i : Z) : outcome C :=
  match PyList.getitem s i with
  | Some c => Returned c
  | None => Raised IndexError
  end.

Section Palindrome.

(** A string is a list of characters of type [C]; [isalnum] is
    [str.isalnum] on one character and [lower] is [str.lower] on one
    character, whose result (a string) is only compared for equality. *)
Context {C L : Type} `{EqDecision L}.
Context (isalnum : C → bool) (lower : C → L).

Notation "x <- m ;; k" := (obind m (λ x, k))
  (at level 100, m at next level, right associativity).

(** [while left < right and not s[left].isalnum(): left += 1] *)
Fixpoint skip_left (fuel : nat) (s : list C) (left right : Z) : outcome Z :=
  go <- (if bool_decide (left < right)
         then c <- char_at s left ;; Returned (negb (isalnum c))
         else Returned false) ;;
  if (go : bool) then
    match fuel with
    | O => Raised FuelExhausted
    | S fuel' => skip_left fuel' s (left + 1) right
    end
  else Returned left.

(** [while left < right and not s[right].isalnum(): right -= 1] *)
Fixpoint skip_right (fuel : nat) (s : list C) (left right : Z) : outcome Z :=
  go <- (if bool_decide (left < right)
         then c <- char_at s right ;; Returned (negb (isalnum c))
         else Returned false) ;;
  if (go : bool) then
    match fuel with
    | O => Raised FuelExhausted
    | S fuel' => skip_right fuel' s left (right - 1)
    end
  else Returned right.

(** The outer loop [while left < right: ...]; the inner loops move one
    index towards the other, so [right - left] iterations bound each. *)
Fixpoint scan (fuel : nat) (s : list C) (left right : Z) : outcome bool :=
  if bool_decide (left < right) then
    match fuel with
    | O => Raised FuelExhausted
    | S fuel' =>
        left <- skip_left (Z.to_nat (right - left)) s left right ;;
        right <- skip_right (Z.to_nat (right - left)) s left right ;;
        a <- char_at s left ;;
        b <- char_at s right ;;
        if bool_decide (lower a ≠ lower b) then Returned false
        else scan fuel' s (left + 1) (right - 1)
    end
  else Returned true.

Definition is_palindrome (s : list C) : outcome bool :=
  let left := 0 in
  let right := Z.of_nat (List.length s) - 1 in
  scan (List.length s) s left right.

(** What the spec says of the result: the alphanumeric characters of [s],
    lowercased, read the same in both directions. *)
Definition alnum_lowered (s : list C) : list L :=
  lower <$> filter (λ c, isalnum c = true) s.

Definition reads_same_both_ways (s : list C) : Prop :=
  alnum_lowered s = reverse (alnum_lowered s).

End Palindrome.

(** Characters below code point 128, where [str.isalnum] holds of the
    digits and the letters and [str.lower] moves [A-Z] to [a-z]. *)
Definition ascii_isalnum (c : ascii) : bool :=
  let n := nat_of_ascii c in
  ((48 <=? n) && (n <=? 57) || (65 <=? n) && (n <=? 90)
   || (97 <=? n) && (n <=? 122))%nat.

Definition ascii_lower (c : ascii) : ascii :=
  let n := nat_of_ascii c in
  if ((65 <=? n) && (n <=? 90))%nat then ascii_of_nat (n + 32) else c.

Section RemoveDuplicates.

Context {C : Type} `{Countable C}.

(** [''.join(result)] for a list of one-character strings. *)
Definition join (result : list (list C)) : list C := mjoin result.

(** One iteration of [for char in s]; [seen] and [result] are the two
    locals, [result] holding one-character strings. *)
Definition visit (st : gset C * list (list C)) (char : C)
  : gset C * list (list C) :=
  let '(seen, result) := st in
  if bool_decide (char ∉ seen)
  then ({[char]} ∪ seen, result ++ [[char]])
  else (seen, result).

Definition remove_duplicates (s : list C) : list C :=
  let seen : gset C := ∅ in
  let result : list (list C) := [] in
  let '(seen, result) := foldl visit (seen, result) s in
  join result.

(** The spec's words: the characters of [s] at the positions where they
    occur for the first time, in the order of these positions. *)
Definition first_occurrences (s : list C) : list C :=
  omap (λ i : nat,
          c ← s !! i;
          if bool_decide (c ∈ take i s) then None else Some c)
       (seq 0 (List.length s)).

End RemoveDuplicates.

Section ReverseString.

(** [reverse_string] swaps the elements of a list in place and returns the
    list it was given: the result below is that list after the call. *)
Context {A : Type}.

Notation "x <- m ;; k" := (obind m (λ x, k))
  (at level 100, m at next level, right associativity).

(** [s[i] = x] *)
Definition store_at (s : list A) (i : Z) (x : A) : outcome (list A) :=
  match PyList.setitem s i x with
  | Some s' => Returned s'
  | None => Raised IndexError
  end.

(** [while left < right: s[left], s[right] = s[right], s[left]; ...]: the
    right-hand side is read first, then [s[left]] and [s[right]] are
    written in this order. *)
Fixpoint reverse_loop (fuel : nat) (s : list A) (left right : Z)
  : outcome (list A) :=
  if bool_decide (left < right) then
    match fuel with
    | O => Raised FuelExhausted
    | S fuel' =>
        a <- char_at s right ;;
        b <- char_at s left ;;
        s <- store_at s left a ;;
        s <- store_at s right b ;;
        reverse_loop fuel' s (left + 1) (right - 1)
    end
  else Returned s.

Definition reverse_string (s : list A) : outcome (list A) :=
  let left := 0 in
  let right := Z.of_nat (List.length s) - 1 in
  reverse_loop (List.length s) s left right.

End ReverseString.

End StrUtil.

(** * Properties of the dynamic array *)

Module DynArrFacts.
Import DynArr.

Section Facts.

Context {T : Type}.
Implicit Types (self d : DynamicArray T) (l : list (option T)).
Implicit Types (i j index : Z) (k : nat).

(** ** Subscripts in range *)

Lemma getitem_in_range {A} (l : list A) i :
  0 ≤ i < Z.of_nat (List.length l) →
  PyList.getitem l i = l !! Z.to_nat i.
Proof.
  intros Hi. unfold PyList.getitem, PyList.norm_index.
  rewrite bool_decide_eq_true_2 by done. done.
Qed.

Lemma setitem_in_range {A} (l : list A) i x :
  0 ≤ i < Z.of_nat (List.length l) →
  PyList.setitem l i x = Some (<[Z.to_nat i := x]> l).
Proof.
  intros Hi. unfold PyList.setitem, PyList.norm_index.
  rewrite bool_decide_eq_true_2 by done. done.
Qed.

Lemma range_nil a b : b ≤ a → PyList.range a b = [].
Proof.
  intros Hab. unfold PyList.range.
  replace (Z.to_nat (b - a)) with 0%nat by lia. done.
Qed.

Lemma range_cons a b : a < b → PyList.range a b = a :: PyList.range (a + 1) b.
Proof.
  intros Hab. unfold PyList.range.
  replace (Z.to_nat (b - a)) with (S (Z.to_nat (b - (a + 1)))) by lia.
  cbn [seq fmap list_fmap]. rewrite <- fmap_S_seq, <- list_fmap_compose.
  f_equal; [lia|]. apply list_fmap_ext. intros _ k _. simpl. lia.
Qed.

(** ** Running a method step by step *)

Lemma bind_returned {A B} (m : M T A) (k : A → M T B) self a self' :
  m self = (Returned a, self') → bind m k self = k a self'.
Proof. intros Hm. unfold bind. rewrite Hm. done. Qed.

Lemma bind_raised {A B} (m : M T A) (k : A → M T B) self e self' :
  m self = (Raised e, self') → bind m k self = (Raised e, self').
Proof. intros Hm. unfold bind. rewrite Hm. done. Qed.

(** ** Reading and writing a slot in range *)

Lemma data_get_in_range self i :
  0 ≤ i < Z.of_nat (List.length (data self)) →
  ∃ x, data self !! Z.to_nat i = Some x ∧ data_get i self = (Returned x, self).
Proof.
  intros Hi. destruct (lookup_lt_is_Some_2 (data self) (Z.to_nat i)) as [x Hx];
    [lia|].
  exists x. split; [done|].
  unfold data_get, bind, get_data. rewrite getitem_in_range, Hx by done. done.
Qed.

Lemma data_set_in_range self i x :
  0 ≤ i < Z.of_nat (List.length (data self)) →
  data_set i x self =
    (Returned tt,
     mkDA (capacity self) (size self) (<[Z.to_nat i := x]> (data self))).
Proof.
  intros Hi. unfold data_set, bind, get_data.
  rewrite setitem_in_range by done. done.
Qed.

(** ** The three loops *)

(** The copy loop of [_resize], from position [a] on: the slots [[a, n)] of
    the new buffer receive those of the old one. *)
Lemma resize_copy_spec self n (m : nat) : ∀ a (nd : list (option T)),
  m = Z.to_nat (n - a) → 0 ≤ a →
  n ≤ Z.of_nat (List.length (data self)) → n ≤ Z.of_nat (List.length nd) →
  ∃ nd',
    for_ (PyList.range a n)
      (λ i new_data,
         bind (data_get i) (λ x, subscript (PyList.setitem new_data i x)))
      nd self = (Returned nd', self)
    ∧ List.length nd' = List.length nd
    ∧ ∀ k, nd' !! k =
           if bool_decide (a ≤ Z.of_nat k < n) then data self !! k else nd !! k.
Proof.
  induction m as [|m IH]; intros a nd Hm Ha Hn Hnd.
  - rewrite range_nil by lia. exists nd. split_and!; [done..|].
    intros k. rewrite bool_decide_eq_false_2 by lia. done.
  - rewrite range_cons by lia. cbn [for_].
    destruct (data_get_in_range self a) as (x & Hx & Hget); [lia|].
    destruct (IH (a + 1) (<[Z.to_nat a := x]> nd)) as (nd' & Hrest & Hlen & Hlk);
      [lia|lia|lia|rewrite length_insert; lia|].
    exists nd'. rewrite Hlen, length_insert. split_and!; [|done|].
    { erewrite bind_returned; [exact Hrest|].
      rewrite (bind_returned _ _ _ _ _ Hget), setitem_in_range by lia. done. }
    intros k. rewrite Hlk.
    destruct (decide (k = Z.to_nat a)) as [->|Hne].
    + rewrite bool_decide_eq_false_2 by lia.
      rewrite bool_decide_eq_true_2 by lia.
      rewrite list_lookup_insert_eq by lia. done.
    + rewrite list_lookup_insert_ne by done.
      repeat case_bool_decide; done || lia.
Qed.

(** The loop of [insert], from [i] down to [index]: the slots [[index, i]]
    move one place to the right. *)
Lemma insert_shift_spec index (fuel : nat) : ∀ i self,
  (Z.to_nat (i - index + 1) ≤ fuel)%nat → 0 ≤ index →
  i + 1 < Z.of_nat (List.length (data self)) →
  ∃ d',
    insert_shift fuel index i self = (Returned tt, d')
    ∧ capacity d' = capacity self ∧ size d' = size self
    ∧ List.length (data d') = List.length (data self)
    ∧ ∀ k, data d' !! k =
           if bool_decide (index < Z.of_nat k ≤ i + 1)
           then data self !! (k - 1)%nat else data self !! k.
Proof.
  assert (Hstop : ∀ fuel i self, i < index →
    ∃ d', insert_shift fuel index i self = (Returned tt, d')
    ∧ capacity d' = capacity self ∧ size d' = size self
    ∧ List.length (data d') = List.length (data self)
    ∧ ∀ k, data d' !! k =
           if bool_decide (index < Z.of_nat k ≤ i + 1)
           then data self !! (k - 1)%nat else data self !! k).
  { intros f i self Hi. exists self.
    destruct f; cbn [insert_shift]; rewrite bool_decide_eq_false_2 by lia;
      (split_and!; [done..|]); intros k;
      rewrite bool_decide_eq_false_2 by lia; done. }
  induction fuel as [|fuel IH]; intros i self Hfuel Hindex Hi.
  - apply Hstop. lia.
  - destruct (decide (i < index)) as [Hlt|Hge]; [by apply Hstop|].
    cbn [insert_shift]. rewrite bool_decide_eq_true_2 by lia.
    unfold bind at 1.
    destruct (data_get_in_range self i) as (x & Hx & ->); [lia|].
    unfold bind at 1. rewrite data_set_in_range by lia.
    destruct (IH (i - 1)
                (mkDA (capacity self) (size self)
                   (<[Z.to_nat (i + 1) := x]> (data self))))
      as (d' & -> & Hc & Hs & Hlen & Hlk);
      [lia|lia|cbn [data]; rewrite length_insert; lia|].
    cbn [capacity size data] in *. rewrite length_insert in Hlen.
    exists d'. split_and!; [done..|].
    intros k. rewrite Hlk.
    destruct (decide (Z.of_nat k = i + 1)) as [Hk|Hk].
    + rewrite bool_decide_eq_false_2 by lia.
      rewrite bool_decide_eq_true_2 by lia.
      replace k with (Z.to_nat (i + 1)) by lia.
      rewrite list_lookup_insert_eq by lia.
      rewrite <- Hx. f_equal. lia.
    + repeat case_bool_decide; try lia;
        rewrite list_lookup_insert_ne by lia; done.
Qed.

(** The loop of [delete], from position [a] on: the slots [[a + 1, n)] move
    one place to the left. *)
Lemma delete_shift_spec n (m : nat) : ∀ a self,
  m = Z.to_nat (n - 1 - a) → 0 ≤ a →
  n ≤ Z.of_nat (List.length (data self)) →
  ∃ d',
    for_ (PyList.range a (n - 1))
      (λ i (_ : unit), bind (data_get (i + 1)) (λ x, data_set i x))
      tt self = (Returned tt, d')
    ∧ capacity d' = capacity self ∧ size d' = size self
    ∧ List.length (data d') = List.length (data self)
    ∧ ∀ k, data d' !! k =
           if bool_decide (a ≤ Z.of_nat k < n - 1)
           then data self !! S k else data self !! k.
Proof.
  induction m as [|m IH]; intros a self Hm Ha Hn.
  - rewrite range_nil by lia. exists self. split_and!; [done..|].
    intros k. rewrite bool_decide_eq_false_2 by lia. done.
  - rewrite range_cons by lia. cbn [for_]. unfold bind at 1. unfold bind at 1.
    destruct (data_get_in_range self (a + 1)) as (x & Hx & ->); [lia|].
    rewrite data_set_in_range by lia.
    destruct (IH (a + 1)
                (mkDA (capacity self) (size self)
                   (<[Z.to_nat a := x]> (data self))))
      as (d' & -> & Hc & Hs & Hlen & Hlk);
      [lia|lia|cbn [data]; rewrite length_insert; lia|].
    cbn [capacity size data] in *. rewrite length_insert in Hlen.
    exists d'. split_and!; [done..|].
    intros k. rewrite Hlk.
    destruct (decide (k = Z.to_nat a)) as [->|Hk].
    + rewrite bool_decide_eq_false_2 by lia.
      rewrite bool_decide_eq_true_2 by lia.
      rewrite list_lookup_insert_eq by lia.
      rewrite <- Hx. f_equal. lia.
    + repeat case_bool_decide; try lia;
        rewrite list_lookup_insert_ne by lia; done.
Qed.

(** ** The methods on a well-formed object *)

Ltac mstep := erewrite bind_returned by reflexivity.

Lemma resize_spec self :
  Z.of_nat (List.length (data self)) = capacity self →
  0 ≤ size self ≤ capacity self →
  ∃ d',
    _resize self = (Returned tt, d')
    ∧ capacity d' = capacity self * 2 ∧ size d' = size self
    ∧ Z.of_nat (List.length (data d')) = capacity self * 2
    ∧ ∀ k, data d' !! k =
           if bool_decide (Z.of_nat k < size self) then data self !! k
           else if bool_decide (Z.of_nat k < capacity self * 2)
                then Some None else None.
Proof.
  intros Hlen Hsize. unfold _resize. do 4 mstep.
  cbn [capacity size data].
  set (self1 := mkDA (capacity self * 2) (size self) (data self)).
  destruct (resize_copy_spec self1 (size self) (Z.to_nat (size self - 0)) 0
              (PyList.repeat None (capacity self * 2)))
    as (nd' & Hcopy & Hlen' & Hlk);
    [done|done|cbn [self1 data]; lia
    |unfold PyList.repeat; rewrite length_replicate; lia|].
  rewrite (bind_returned _ _ _ _ _ Hcopy).
  eexists. split; [reflexivity|]. cbn [capacity size data self1].
  unfold PyList.repeat in *. rewrite length_replicate in Hlen'.
  split_and!; [done|done|lia|].
  intros k. rewrite Hlk. cbn [self1 data].
  repeat case_bool_decide; try lia; try done.
  - rewrite lookup_replicate_2 by lia. done.
  - apply lookup_replicate_None. lia.
Qed.

(** The statement [if self.size == self.capacity: self._resize()]. *)
Abbreviation grow self :=
  ((if bool_decide (size self = capacity self) then _resize else ret tt) self).

Lemma grow_spec self :
  wf self →
  ∃ d1,
    grow self = (Returned tt, d1)
    ∧ size d1 = size self
    ∧ capacity d1 =
        (if bool_decide (size self = capacity self)
         then capacity self * 2 else capacity self)
    ∧ Z.of_nat (List.length (data d1)) = capacity d1
    ∧ size d1 < capacity d1
    ∧ ∀ k, data d1 !! k =
           if bool_decide (size self = capacity self)
           then (if bool_decide (Z.of_nat k < size self) then data self !! k
                 else if bool_decide (Z.of_nat k < capacity self * 2)
                      then Some None else None)
           else data self !! k.
Proof.
  intros (Hlen & Hsize & k0 & Hk0 & Hcap).
  assert (2 ≤ capacity self).
  { rewrite Hcap. change 2 with (2 ^ 1) at 1.
    apply Z.pow_le_mono_r; lia. }
  case_bool_decide as Hfull.
  - destruct (resize_spec self) as (d1 & Hrun & Hc & Hs & Hl & Hlk);
      [done..|].
    exists d1. split_and!; [done|done|done|lia|lia|done].
  - exists self. split_and!; [done|done|done|done|lia|done].
Qed.

Lemma append_spec self element :
  wf self →
  ∃ d1,
    grow self = (Returned tt, d1)
    ∧ append element self =
        (Returned tt,
         mkDA (capacity d1) (size self + 1)
           (<[Z.to_nat (size self) := element]> (data d1))).
Proof.
  intros Hwf.
  destruct (grow_spec self Hwf) as (d1 & Hgrow & Hs & Hc & Hl & Hlt & Hlk).
  exists d1. split; [done|].
  unfold append. do 2 mstep. rewrite (bind_returned _ _ _ _ _ Hgrow).
  mstep. destruct Hwf as (_ & ? & _).
  erewrite bind_returned; [|apply data_set_in_range; lia].
  mstep. unfold set_size. cbn [capacity size data]. rewrite Hs. done.
Qed.

Lemma insert_spec self index element :
  wf self → 0 ≤ index ≤ size self →
  ∃ d1 d',
    grow self = (Returned tt, d1)
    ∧ insert index element self = (Returned tt, d')
    ∧ capacity d' = capacity d1 ∧ size d' = size self + 1
    ∧ List.length (data d') = List.length (data d1)
    ∧ ∀ k, data d' !! k =
           if bool_decide (Z.of_nat k = index) then Some element
           else if bool_decide (index < Z.of_nat k ≤ size self)
                then data d1 !! (k - 1)%nat else data d1 !! k.
Proof.
  intros Hwf Hindex.
  destruct (grow_spec self Hwf) as (d1 & Hgrow & Hs & Hc & Hl & Hlt & Hlk).
  destruct (insert_shift_spec index (Z.to_nat (size d1 - index))
              (size d1 - 1) d1)
    as (d2 & Hshift & Hc2 & Hs2 & Hl2 & Hlk2); [lia..|].
  exists d1. eexists. split; [done|].
  split.
  { unfold insert. mstep.
    rewrite !bool_decide_eq_false_2 by lia. cbn [orb]. do 2 mstep.
    rewrite (bind_returned _ _ _ _ _ Hgrow). mstep.
    rewrite (bind_returned _ _ _ _ _ Hshift).
    erewrite bind_returned; [|apply data_set_in_range; lia].
    mstep. unfold set_size. cbn [capacity size data]. reflexivity. }
  cbn [capacity size data]. rewrite length_insert.
  split_and!; [done|lia|done|].
  intros k. destruct (decide (Z.of_nat k = index)) as [Hk|Hk].
  - rewrite bool_decide_eq_true_2 by done.
    replace (Z.to_nat index) with k by lia.
    apply list_lookup_insert_eq. lia.
  - rewrite (bool_decide_eq_false_2 (Z.of_nat k = index)) by done.
    rewrite list_lookup_insert_ne by lia. rewrite Hlk2, Hs.
    replace (size self - 1 + 1) with (size self) by lia. done.
Qed.

Lemma delete_spec self index :
  wf self → 0 ≤ index < size self →
  ∃ x d',
    data self !! Z.to_nat index = Some x
    ∧ delete index self = (Returned x, d')
    ∧ capacity d' = capacity self ∧ size d' = size self - 1
    ∧ List.length (data d') = List.length (data self)
    ∧ ∀ k, data d' !! k =
           if bool_decide (Z.of_nat k = size self - 1) then Some None
           else if bool_decide (index ≤ Z.of_nat k < size self - 1)
                then data self !! S k else data self !! k.
Proof.
  intros (Hlen & Hsize & _) Hindex.
  destruct (data_get_in_range self index) as (x & Hx & Hget); [lia|].
  destruct (delete_shift_spec (size self)
              (Z.to_nat (size self - 1 - index)) index self)
    as (d2 & Hshift & Hc2 & Hs2 & Hl2 & Hlk2); [lia..|].
  exists x. eexists. split; [done|].
  split.
  { unfold delete. mstep.
    rewrite !bool_decide_eq_false_2 by lia. cbn [orb]. mstep.
    rewrite (bind_returned _ _ _ _ _ Hget). mstep.
    rewrite (bind_returned _ _ _ _ _ Hshift). do 3 mstep.
    erewrite bind_returned;
      [|apply data_set_in_range; cbn [capacity size data]; lia].
    cbn [capacity size data]. reflexivity. }
  cbn [capacity size data]. rewrite length_insert, Hs2.
  split_and!; [done..|].
  intros k. destruct (decide (Z.of_nat k = size self - 1)) as [Hk|Hk].
  - rewrite bool_decide_eq_true_2 by done.
    replace (Z.to_nat (size self - 1)) with k by lia.
    apply list_lookup_insert_eq. lia.
  - rewrite (bool_decide_eq_false_2 (Z.of_nat k = size self - 1)) by done.
    rewrite list_lookup_insert_ne by lia. apply Hlk2.
Qed.

Lemma get_spec self index :
  wf self → 0 ≤ index < size self →
  ∃ x, data self !! Z.to_nat index = Some x
       ∧ get index self = (Returned x, self).
Proof.
  intros (Hlen & Hsize & _) Hindex.
  destruct (data_get_in_range self index) as (x & Hx & Hget); [lia|].
  exists x. split; [done|].
  unfold get. mstep. rewrite !bool_decide_eq_false_2 by lia. cbn [orb].
  mstep. done.
Qed.

(** The guards: a rejected index raises before anything is written. *)

Lemma insert_rejects self index element :
  index < 0 ∨ index > size self →
  insert index element self = (Raised IndexError, self).
Proof.
  intros Hindex. unfold insert. mstep.
  apply bind_raised.
  destruct Hindex; [rewrite bool_decide_eq_true_2 by done; done|].
  rewrite (bool_decide_eq_true_2 (index > size self)) by done.
  rewrite orb_true_r. done.
Qed.

Lemma delete_rejects self index :
  index < 0 ∨ index >= size self →
  delete index self = (Raised IndexError, self).
Proof.
  intros Hindex. unfold delete. mstep.
  apply bind_raised.
  destruct Hindex; [rewrite bool_decide_eq_true_2 by done; done|].
  rewrite (bool_decide_eq_true_2 (index >= size self)) by done.
  rewrite orb_true_r. done.
Qed.

Lemma get_rejects self index :
  index < 0 ∨ index >= size self →
  get index self = (Raised IndexError, self).
Proof.
  intros Hindex. unfold get. mstep.
  apply bind_raised.
  destruct Hindex; [rewrite bool_decide_eq_true_2 by done; done|].
  rewrite (bool_decide_eq_true_2 (index >= size self)) by done.
  rewrite orb_true_r. done.
Qed.

(** ** The invariant holds in every state *)

Lemma wf_init : wf (@init T).
Proof. split_and!; [done|done|done|]. exists 1%nat. done. Qed.

Lemma wf_grow self d1 : wf self → grow self = (Returned tt, d1) → wf d1.
Proof.
  intros Hwf Hrun.
  destruct (grow_spec self Hwf) as (d & Hgrow & Hs & Hc & Hl & Hlt & _).
  rewrite Hrun in Hgrow. injection Hgrow as <-.
  destruct Hwf as (Hlen & Hsize & k & Hk & Hcap).
  split_and!; [done|lia|lia|].
  rewrite Hc. case_bool_decide; [|by exists k].
  exists (S k). split; [lia|]. rewrite Hcap, Nat2Z.inj_succ, Z.pow_succ_r; lia.
Qed.

Lemma wf_append self element : wf self → wf (append element self).2.
Proof.
  intros Hwf. destruct (append_spec self element Hwf) as (d1 & Hgrow & ->).
  destruct (grow_spec self Hwf) as (d & Hgrow' & Hs & _ & _ & Hlt & _).
  rewrite Hgrow in Hgrow'. injection Hgrow' as <-.
  destruct (wf_grow self d1 Hwf Hgrow) as (Hl & Hsize & Hpow).
  split_and!; cbn [fst snd capacity size data];
    [rewrite length_insert; done|lia|lia|done].
Qed.

Lemma wf_insert self index element :
  wf self → wf (insert index element self).2.
Proof.
  intros Hwf.
  destruct (decide (0 ≤ index ≤ size self)) as [Hin|Hout].
  - destruct (insert_spec self index element Hwf Hin)
      as (d1 & d' & Hgrow & -> & Hc & Hs & Hl & _).
    destruct (grow_spec self Hwf) as (d & Hgrow' & Hs1 & _ & _ & Hlt & _).
    rewrite Hgrow in Hgrow'. injection Hgrow' as <-.
    destruct (wf_grow self d1 Hwf Hgrow) as (Hl1 & Hsize & Hpow).
    split_and!; cbn [fst snd]; [lia|lia|lia|]. rewrite Hc. done.
  - rewrite insert_rejects by lia. done.
Qed.

Lemma wf_delete self index : wf self → wf (delete index self).2.
Proof.
  intros Hwf.
  destruct (decide (0 ≤ index < size self)) as [Hin|Hout].
  - destruct (delete_spec self index Hwf Hin)
      as (x & d' & _ & -> & Hc & Hs & Hl & _).
    destruct Hwf as (Hl1 & Hsize & Hpow).
    split_and!; cbn [fst snd]; [lia|lia|lia|]. rewrite Hc. done.
  - rewrite delete_rejects by lia. done.
Qed.

Lemma wf_get self index : wf self → (get index self).2 = self.
Proof.
  intros Hwf.
  destruct (decide (0 ≤ index < size self)) as [Hin|Hout].
  - destruct (get_spec self index Hwf Hin) as (x & _ & ->). done.
  - rewrite get_rejects by lia. done.
Qed.

Lemma returns_None_state (r : outcome unit * DynamicArray T) :
  (returns_None r).2 = r.2.
Proof. by destruct r as [[]]. Qed.

Lemma wf_call (o : op T) self : wf self → wf (call o self).2.
Proof.
  intros Hwf. destruct o as [v|i v|i|i]; cbn [call].
  - rewrite returns_None_state. by apply wf_append.
  - rewrite returns_None_state. by apply wf_insert.
  - by apply wf_delete.
  - by rewrite wf_get.
Qed.

Lemma wf_run (ops : list (op T)) self : wf self → wf (run ops self).
Proof.
  revert self. induction ops as [|o ops IH]; intros self Hwf; [done|].
  apply IH, wf_call, Hwf.
Qed.

Lemma reachable_wf self : reachable self → wf self.
Proof. intros [ops ->]. apply wf_run, wf_init. Qed.

Lemma wf_capacity_ge_2 self : wf self → 2 ≤ capacity self.
Proof.
  intros (_ & _ & k & Hk & ->). change 2 with (2 ^ 1) at 1.
  apply Z.pow_le_mono_r; lia.
Qed.

(** ** The size and capacity invariant *)

(** Claim C1.  After any sequence of public calls ([append], [insert],
    [delete], [get], failed or not) on a freshly constructed array,
    [0 <= size <= capacity], [capacity >= 2], and [capacity] is [2 ^ k] for
    some [k >= 1]. *)
Theorem size_capacity_invariant (ops : list (op T)) :
  let self := run ops init in
  0 ≤ size self ≤ capacity self
  ∧ capacity self >= 2
  ∧ ∃ k : nat, (k ≥ 1)%nat ∧ capacity self = 2 ^ Z.of_nat k.
Proof.
  intros self. assert (Hwf : wf self) by apply wf_run, wf_init.
  pose proof (wf_capacity_ge_2 self Hwf).
  destruct Hwf as (_ & Hsize & k & Hk & Hcap).
  split_and!; [lia|lia|lia|]. exists k. split; [lia|done].
Qed.

(** ** Rejected indices *)

(** Claim C2.  In every state of a dynamic array, [get] and [delete] raise
    [IndexError] exactly when [index < 0] or [index >= size], [insert]
    exactly when [index < 0] or [index > size]; and a call that raises
    leaves the object (size, capacity, every slot) as it was. *)
Theorem out_of_range_rejected self index element :
  reachable self →
  ((get index self).1 = Raised IndexError ↔ index < 0 ∨ index >= size self)
  ∧ ((delete index self).1 = Raised IndexError
       ↔ index < 0 ∨ index >= size self)
  ∧ ((insert index element self).1 = Raised IndexError
       ↔ index < 0 ∨ index > size self)
  ∧ (∀ e, (get index self).1 = Raised e → (get index self).2 = self)
  ∧ (∀ e, (delete index self).1 = Raised e → (delete index self).2 = self)
  ∧ (∀ e, (insert index element self).1 = Raised e
          → (insert index element self).2 = self).
Proof.
  intros Hwf%reachable_wf.
  assert (Hget : (index < 0 ∨ index >= size self)
                 ∨ ∃ x, get index self = (Returned x, self)).
  { destruct (decide (0 ≤ index < size self)) as [Hin|Hout]; [|left; lia].
    right. destruct (get_spec self index Hwf Hin) as (x & _ & ?). eauto. }
  assert (Hdel : (index < 0 ∨ index >= size self)
                 ∨ ∃ x d', delete index self = (Returned x, d')).
  { destruct (decide (0 ≤ index < size self)) as [Hin|Hout]; [|left; lia].
    right. destruct (delete_spec self index Hwf Hin) as (x & d' & _ & ? & _).
    eauto. }
  assert (Hins : (index < 0 ∨ index > size self)
                 ∨ ∃ d', insert index element self = (Returned tt, d')).
  { destruct (decide (0 ≤ index ≤ size self)) as [Hin|Hout]; [|left; lia].
    right.
    destruct (insert_spec self index element Hwf Hin) as (? & d' & _ & ? & _).
    eauto. }
  split_and!.
  - split; [|by intros ->%get_rejects].
    destruct Hget as [?|(x & ->)]; [done|]. discriminate.
  - split; [|by intros ->%delete_rejects].
    destruct Hdel as [?|(x & d' & ->)]; [done|]. discriminate.
  - split; [|by intros ->%(insert_rejects _ _ element)].
    destruct Hins as [?|(d' & ->)]; [done|]. discriminate.
  - intros e. destruct Hget as [->%get_rejects|(x & ->)]; done.
  - intros e. destruct Hdel as [->%delete_rejects|(x & d' & ->)]; done.
  - intros e.
    destruct Hins as [->%(insert_rejects _ _ element)|(d' & ->)]; done.
Qed.

(** ** Appending from empty *)

Lemma run_snoc (ops : list (op T)) (o : op T) self :
  run (ops ++ [o]) self = (call o (run ops self)).2.
Proof. unfold run. by rewrite foldl_snoc. Qed.

(** While only [append] is called, the buffer is more than half full as
    soon as it has grown. *)
Lemma appends_state (elements : list (option T)) :
  let self := run (Append <$> elements) init in
  wf self
  ∧ size self = Z.of_nat (List.length elements)
  ∧ (capacity self = 2 ∨ capacity self < 2 * size self).
Proof.
  induction elements as [|v elements IH] using rev_ind.
  - split_and!; [apply wf_init|done|by left].
  - rewrite fmap_app. cbn [fmap list_fmap]. rewrite run_snoc.
    cbn zeta in IH. destruct IH as (Hwf & Hsize & Hhalf).
    set (self := run (Append <$> elements) init) in *.
    cbn zeta. cbn [call]. rewrite returns_None_state.
    split; [by apply wf_append|].
    destruct (append_spec self v Hwf) as (d1 & Hgrow & ->).
    destruct (grow_spec self Hwf) as (d & Hgrow' & Hs & Hc & _ & Hlt & _).
    rewrite Hgrow in Hgrow'. injection Hgrow' as <-.
    cbn [fst snd capacity size data]. rewrite length_app. cbn [List.length].
    split; [lia|]. rewrite Hc. case_bool_decide; lia.
Qed.

(** Claim C3.  Appending [n] elements to a freshly constructed array gives
    [size = n] and a capacity that is the smallest power of two at least
    [max(2, n)]. *)
Theorem append_n_from_empty (elements : list (option T)) :
  let n := Z.of_nat (List.length elements) in
  let self := run (Append <$> elements) init in
  size self = n
  ∧ ∃ k : nat,
      capacity self = 2 ^ Z.of_nat k
      ∧ Z.max 2 n ≤ 2 ^ Z.of_nat k
      ∧ ∀ j : nat, Z.max 2 n ≤ 2 ^ Z.of_nat j → 2 ^ Z.of_nat k ≤ 2 ^ Z.of_nat j.
Proof.
  intros n self.
  destruct (appends_state elements) as (Hwf & Hsize & Hhalf).
  fold self in Hwf, Hsize, Hhalf. fold n in Hsize.
  split; [done|].
  pose proof (wf_capacity_ge_2 self Hwf).
  destruct Hwf as (_ & Hle & k & Hk & Hcap).
  exists k. rewrite <- Hcap. split_and!; [done|lia|].
  intros j Hj. destruct Hhalf as [->|Hhalf]; [lia|].
  assert (2 ^ Z.of_nat k < 2 ^ (Z.of_nat j + 1)) as Hlt.
  { rewrite Z.pow_add_r by lia. lia. }
  apply Z.pow_lt_mono_r_iff in Hlt; [|lia..].
  rewrite Hcap. apply Z.pow_le_mono_r; lia.
Qed.

(** ** Insertion *)

Lemma grow_keeps self d1 k :
  wf self → grow self = (Returned tt, d1) → Z.of_nat k < size self →
  data d1 !! k = data self !! k.
Proof.
  intros Hwf Hrun Hk.
  destruct (grow_spec self Hwf) as (d & Hgrow & _ & _ & _ & _ & Hlk).
  rewrite Hrun in Hgrow. injection Hgrow as <-.
  rewrite Hlk. repeat case_bool_decide; done || lia.
Qed.

Lemma get_lookup self j x :
  wf self → 0 ≤ j < size self → data self !! Z.to_nat j = Some x →
  get j self = (Returned x, self).
Proof.
  intros Hwf Hj Hx. destruct (get_spec self j Hwf Hj) as (y & Hy & ->).
  congruence.
Qed.

(** Claim C4.  For a valid index [0 <= i <= size] and a value [v]: after
    [insert(i, v)], [get(i)] returns [v], an element that was at a position
    [j < i] is still at [j], an element that was at a position [j >= i] is
    at [j + 1], and [size] has grown by one. *)
Theorem insert_then_get self index element :
  reachable self → 0 ≤ index ≤ size self →
  ∃ d',
    insert index element self = (Returned tt, d')
    ∧ get index d' = (Returned element, d')
    ∧ (∀ j, 0 ≤ j < index →
         ∃ x, get j self = (Returned x, self) ∧ get j d' = (Returned x, d'))
    ∧ (∀ j, index ≤ j < size self →
         ∃ x, get j self = (Returned x, self)
              ∧ get (j + 1) d' = (Returned x, d'))
    ∧ size d' = size self + 1.
Proof.
  intros Hwf%reachable_wf Hindex.
  pose proof (wf_insert self index element Hwf) as Hwf'.
  destruct (insert_spec self index element Hwf Hindex)
    as (d1 & d' & Hgrow & Hins & Hc & Hs & Hl & Hlk).
  rewrite Hins in Hwf'. cbn [snd] in Hwf'.
  exists d'. split_and!; [done| | | |done].
  - apply get_lookup; [done|lia|].
    rewrite Hlk, bool_decide_eq_true_2 by lia. done.
  - intros j Hj. destruct (get_spec self j Hwf) as (x & Hx & Hget); [lia|].
    exists x. split; [done|]. apply get_lookup; [done|lia|].
    rewrite Hlk, !bool_decide_eq_false_2 by lia.
    rewrite (grow_keeps self) by (done || lia). done.
  - intros j Hj. destruct (get_spec self j Hwf) as (x & Hx & Hget); [lia|].
    exists x. split; [done|]. apply get_lookup; [done|lia|].
    rewrite Hlk, bool_decide_eq_false_2, bool_decide_eq_true_2 by lia.
    rewrite (grow_keeps self) by (done || lia).
    rewrite <- Hx. f_equal. lia.
Qed.

(** ** Deletion followed by insertion *)

(** Claim C5.  For a valid index [0 <= i < size]: [delete(i)] returns the
    element at [i], and inserting that element back at [i] restores the
    logical sequence [[0, size)], element for element, and the size. *)
Theorem delete_then_insert self index :
  reachable self → 0 ≤ index < size self →
  ∃ x d1 d2,
    get index self = (Returned x, self)
    ∧ delete index self = (Returned x, d1)
    ∧ insert index x d1 = (Returned tt, d2)
    ∧ contents d2 = contents self
    ∧ size d2 = size self.
Proof.
  intros Hwf%reachable_wf Hindex.
  pose proof (wf_delete self index Hwf) as Hwf1.
  destruct (delete_spec self index Hwf Hindex)
    as (x & d1 & Hx & Hdel & Hc1 & Hs1 & Hl1 & Hlk1).
  rewrite Hdel in Hwf1. cbn [snd] in Hwf1.
  destruct (insert_spec d1 index x Hwf1)
    as (d1' & d2 & Hgrow & Hins & Hc2 & Hs2 & Hl2 & Hlk2); [lia|].
  assert (d1' = d1) as ->.
  { destruct Hwf as (_ & ? & _).
    rewrite bool_decide_eq_false_2 in Hgrow by lia.
    by injection Hgrow as <-. }
  clear Hgrow.
  exists x, d1, d2. split_and!; [by apply get_lookup|done|done| |lia].
  unfold contents. rewrite Hs2, Hs1.
  replace (size self - 1 + 1) with (size self) by lia.
  apply list_eq. intros k.
  destruct (decide (k < Z.to_nat (size self))%nat) as [Hk|Hk];
    [|rewrite !lookup_take_ge by lia; done].
  rewrite !lookup_take_lt by done. rewrite Hlk2.
  destruct (decide (Z.of_nat k = index)) as [Heq|Hne].
  - rewrite bool_decide_eq_true_2 by done. rewrite <- Hx. f_equal. lia.
  - rewrite (bool_decide_eq_false_2 (Z.of_nat k = index)) by done.
    rewrite Hs1. case_bool_decide.
    + rewrite Hlk1, bool_decide_eq_false_2, bool_decide_eq_true_2 by lia.
      f_equal. lia.
    + rewrite Hlk1, !bool_decide_eq_false_2 by lia. done.
Qed.

(** ** Growth *)

Lemma capacity_call_mono (o : op T) self :
  wf self → capacity self ≤ capacity (call o self).2.
Proof.
  intros Hwf. pose proof (wf_capacity_ge_2 self Hwf).
  assert (Hgrow : ∀ d1, grow self = (Returned tt, d1) →
                        capacity self ≤ capacity d1).
  { intros d1 Hrun.
    destruct (grow_spec self Hwf) as (d & Hgrow & _ & Hc & _).
    rewrite Hrun in Hgrow. injection Hgrow as <-.
    rewrite Hc. case_bool_decide; lia. }
  destruct o as [v|i v|i|i]; cbn [call]; rewrite ?returns_None_state.
  - destruct (append_spec self v Hwf) as (d1 & Hrun & ->).
    cbn [snd capacity]. by apply Hgrow.
  - destruct (decide (0 ≤ i ≤ size self)) as [Hin|Hout].
    + destruct (insert_spec self i v Hwf Hin)
        as (d1 & d' & Hrun & -> & Hc & _).
      cbn [snd]. rewrite Hc. by apply Hgrow.
    + rewrite insert_rejects by lia. done.
  - destruct (decide (0 ≤ i < size self)) as [Hin|Hout].
    + destruct (delete_spec self i Hwf Hin) as (x & d' & _ & -> & Hc & _).
      cbn [snd]. lia.
    + rewrite delete_rejects by lia. done.
  - by rewrite wf_get.
Qed.

Lemma capacity_run_mono (ops : list (op T)) self :
  wf self → capacity self ≤ capacity (run ops self).
Proof.
  revert self. induction ops as [|o ops IH]; intros self Hwf; [done|].
  etrans; [by apply (capacity_call_mono o)|]. apply IH, wf_call, Hwf.
Qed.

(** Claim C6.  In every state, [_resize] doubles [capacity], leaves [size]
    as it is, keeps the logical sequence [[0, size)] element for element,
    and leaves [None] in every other slot of the new buffer; and no sequence
    of public calls ever lowers [capacity]. *)
Theorem growth_keeps_elements self :
  reachable self →
  (∃ d',
     _resize self = (Returned tt, d')
     ∧ capacity d' = 2 * capacity self
     ∧ size d' = size self
     ∧ contents d' = contents self
     ∧ Z.of_nat (List.length (data d')) = capacity d'
     ∧ ∀ k, size self ≤ Z.of_nat k < capacity d' → data d' !! k = Some None)
  ∧ ∀ ops, capacity self ≤ capacity (run ops self).
Proof.
  intros Hwf%reachable_wf. split; [|intros ops; by apply capacity_run_mono].
  destruct Hwf as (Hlen & Hsize & _).
  destruct (resize_spec self Hlen Hsize) as (d' & Hrun & Hc & Hs & Hl & Hlk).
  exists d'. split_and!; [done|lia|done| |lia|].
  - unfold contents. rewrite Hs. apply list_eq. intros k.
    destruct (decide (k < Z.to_nat (size self))%nat) as [Hk|Hk];
      [|rewrite !lookup_take_ge by lia; done].
    rewrite !lookup_take_lt by done.
    rewrite Hlk, bool_decide_eq_true_2 by lia. done.
  - intros k Hk. rewrite Hlk, bool_decide_eq_false_2, bool_decide_eq_true_2
      by lia. done.
Qed.

(** ** Deleting the last element *)

(** Claim C7.  On a non-empty array, [delete(size - 1)] does not raise: its
    loop runs over the empty range, the elements at [[0, size - 1)] stay
    where they are, the element that was at [size - 1] is returned, [size]
    drops by one and the vacated slot holds [None]. *)
Theorem delete_last self :
  reachable self → size self >= 1 →
  ∃ x d',
    get (size self - 1) self = (Returned x, self)
    ∧ delete (size self - 1) self = (Returned x, d')
    ∧ PyList.range (size self - 1) (size self - 1) = []
    ∧ (∀ k, 0 ≤ Z.of_nat k < size self - 1 → data d' !! k = data self !! k)
    ∧ size d' = size self - 1
    ∧ capacity d' = capacity self
    ∧ data d' !! Z.to_nat (size self - 1) = Some None.
Proof.
  intros Hwf%reachable_wf Hsize.
  destruct (delete_spec self (size self - 1) Hwf)
    as (x & d' & Hx & Hdel & Hc & Hs & Hl & Hlk); [lia|].
  exists x, d'.
  split_and!; [apply get_lookup; done || lia|done|by apply range_nil| |done..|].
  - intros k Hk. rewrite Hlk, !bool_decide_eq_false_2 by lia. done.
  - rewrite Hlk, bool_decide_eq_true_2 by lia. done.
Qed.

(** ** Insertion at the end *)

(** Claim C10.  In every state, [insert(size, v)] and [append(v)] have the
    same outcome and leave the same object: same size, same capacity, same
    contents of every slot. *)
Theorem insert_at_end_is_append self element :
  reachable self →
  insert (size self) element self = append element self.
Proof.
  intros Hwf%reachable_wf.
  destruct (append_spec self element Hwf) as (d1 & Hgrow & ->).
  destruct (insert_spec self (size self) element Hwf)
    as (d1' & d' & Hgrow' & -> & Hc & Hs & Hl & Hlk);
    [destruct Hwf as (_ & ? & _); lia|].
  rewrite Hgrow in Hgrow'. injection Hgrow' as <-.
  f_equal. destruct d' as [c n l]. cbn [capacity size data] in *.
  subst c n. f_equal. apply list_eq. intros k. rewrite Hlk.
  destruct (grow_spec self Hwf) as (d & Hgrow' & Hs1 & _ & Hl1 & Hlt & _).
  rewrite Hgrow in Hgrow'. injection Hgrow' as <-.
  destruct Hwf as (_ & Hsize & _).
  destruct (decide (Z.of_nat k = size self)) as [Hk|Hk].
  - rewrite bool_decide_eq_true_2 by done.
    replace (Z.to_nat (size self)) with k by lia.
    symmetry. apply list_lookup_insert_eq. lia.
  - rewrite !bool_decide_eq_false_2 by lia.
    rewrite list_lookup_insert_ne by lia. done.
Qed.

End Facts.

(** ** The assertions of [test_dynamic_array], replayed on the model *)

Example test_append_resize :
  size test_array = 3 ∧ capacity test_array = 4
  ∧ get 2 test_array = (Returned (Some 30), test_array).
Proof. by vm_compute. Qed.

Example test_insert_middle_then_front :
  contents (run [Insert 1 (Some 15); Insert 0 (Some 5)] test_array)
  = [Some 5; Some 10; Some 15; Some 20; Some 30].
Proof. by vm_compute. Qed.

Example test_delete_first :
  let arr := run [Insert 1 (Some 15); Insert 0 (Some 5)] test_array in
  (delete 0 arr).1 = Returned (Some 5)
  ∧ contents (delete 0 arr).2 = [Some 10; Some 15; Some 20; Some 30].
Proof. by vm_compute. Qed.

Example test_errors :
  (get (-1) test_array).1 = Raised IndexError
  ∧ (delete (size test_array) test_array).1 = Raised IndexError
  ∧ (insert (size test_array + 2) (Some 100) test_array).1 = Raised IndexError
  ∧ (get 0 (@init Z)).1 = Raised IndexError.
Proof. by vm_compute. Qed.

(** ** The statements at the array of the test suite *)

Lemma out_of_range_rejected_witness :
  reachable test_array
  ∧ ((get 3 test_array).1 = Raised IndexError ↔ 3 < 0 ∨ 3 >= size test_array)
  ∧ ((delete 3 test_array).1 = Raised IndexError
       ↔ 3 < 0 ∨ 3 >= size test_array)
  ∧ ((insert 3 (Some 40) test_array).1 = Raised IndexError
       ↔ 3 < 0 ∨ 3 > size test_array)
  ∧ (∀ e, (get 3 test_array).1 = Raised e → (get 3 test_array).2 = test_array)
  ∧ (∀ e, (delete 3 test_array).1 = Raised e
          → (delete 3 test_array).2 = test_array)
  ∧ (∀ e, (insert 3 (Some 40) test_array).1 = Raised e
          → (insert 3 (Some 40) test_array).2 = test_array).
Proof.
  split; [by eexists|].
  apply (out_of_range_rejected test_array 3 (Some 40)).
  by eexists.
Defined.

Lemma insert_then_get_witness :
  reachable test_array ∧ 0 ≤ 1 ≤ size test_array
  ∧ ∃ d',
      insert 1 (Some 15) test_array = (Returned tt, d')
      ∧ get 1 d' = (Returned (Some 15), d')
      ∧ (∀ j, 0 ≤ j < 1 →
           ∃ x, get j test_array = (Returned x, test_array)
                ∧ get j d' = (Returned x, d'))
      ∧ (∀ j, 1 ≤ j < size test_array →
           ∃ x, get j test_array = (Returned x, test_array)
                ∧ get (j + 1) d' = (Returned x, d'))
      ∧ size d' = size test_array + 1.
Proof.
  assert (0 ≤ 1 ≤ size test_array) as Hindex by (vm_compute; split; discriminate).
  split_and!; [by eexists|apply Hindex..|].
  apply (insert_then_get test_array 1 (Some 15));
    [by eexists|apply Hindex].
Defined.

Lemma delete_then_insert_witness :
  reachable test_array ∧ 0 ≤ 1 < size test_array
  ∧ ∃ x d1 d2,
      get 1 test_array = (Returned x, test_array)
      ∧ delete 1 test_array = (Returned x, d1)
      ∧ insert 1 x d1 = (Returned tt, d2)
      ∧ contents d2 = contents test_array
      ∧ size d2 = size test_array.
Proof.
  assert (0 ≤ 1 < size test_array) as Hindex by (vm_compute; split; done).
  split_and!; [by eexists|apply Hindex..|].
  apply (delete_then_insert test_array 1);
    [by eexists|apply Hindex].
Defined.

Lemma growth_keeps_elements_witness :
  reachable test_array
  ∧ (∃ d',
       _resize test_array = (Returned tt, d')
       ∧ capacity d' = 2 * capacity test_array
       ∧ size d' = size test_array
       ∧ contents d' = contents test_array
       ∧ Z.of_nat (List.length (data d')) = capacity d'
       ∧ ∀ k, size test_array ≤ Z.of_nat k < capacity d' →
              data d' !! k = Some None)
  ∧ ∀ ops, capacity test_array ≤ capacity (run ops test_array).
Proof.
  split; [by eexists|].
  apply (growth_keeps_elements test_array); by eexists.
Defined.

Lemma delete_last_witness :
  reachable test_array ∧ size test_array >= 1
  ∧ ∃ x d',
      get (size test_array - 1) test_array = (Returned x, test_array)
      ∧ delete (size test_array - 1) test_array = (Returned x, d')
      ∧ PyList.range (size test_array - 1) (size test_array - 1) = []
      ∧ (∀ k, 0 ≤ Z.of_nat k < size test_array - 1 →
              data d' !! k = data test_array !! k)
      ∧ size d' = size test_array - 1
      ∧ capacity d' = capacity test_array
      ∧ data d' !! Z.to_nat (size test_array - 1) = Some None.
Proof.
  assert (size test_array >= 1) as Hsize by (vm_compute; discriminate).
  split_and!; [by eexists|apply Hsize|].
  apply (delete_last test_array); [by eexists|apply Hsize].
Defined.

Lemma insert_at_end_is_append_witness :
  reachable test_array
  ∧ insert (size test_array) (Some 50) test_array
    = append (Some 50) test_array.
Proof.
  split; [by eexists|].
  apply (insert_at_end_is_append test_array (Some 50)); by eexists.
Defined.

End DynArrFacts.

(** * Properties of the string utilities *)

Module StrUtilFacts.
Import StrUtil.

Section RemoveDuplicatesFacts.

Context {C : Type} `{Countable C}.
Implicit Types (s p : list C) (c : C).

(** The first occurrences in [s] of the characters that do not occur in a
    prefix [p] already read. *)
Local Abbreviation first_after p s :=
  (omap (λ i : nat,
           c ← s%list !! i;
           if bool_decide (c ∈ p ++ take i s) then None else Some c)
        (seq 0 (List.length s))).

Lemma first_after_cons p c s :
  first_after p (c :: s)
  = (if bool_decide (c ∈ p) then [] else [c]) ++ first_after (p ++ [c]) s.
Proof.
  cbn [List.length seq]. rewrite <- fmap_S_seq.
  cbn [omap list_omap lookup list_lookup take mbind option_bind].
  rewrite app_nil_r.
  assert (omap (λ i : nat,
                  c0 ← (c :: s) !! i;
                  if bool_decide (c0 ∈ p ++ take i (c :: s))
                  then None else Some c0)
               (S <$> seq 0 (List.length s))
          = first_after (p ++ [c]) s) as ->.
  { apply list_omap_ext, Forall2_fmap_l, Forall_Forall2_diag, Forall_forall.
    intros i _. cbn [compose lookup list_lookup take].
    rewrite <- app_assoc. done. }
  by case_bool_decide.
Qed.

Lemma elem_of_first_after p s c :
  c ∈ first_after p s ↔ c ∈ s ∧ c ∉ p.
Proof.
  revert p. induction s as [|c' s IH]; intros p.
  - cbn. rewrite elem_of_nil. tauto.
  - rewrite first_after_cons, elem_of_app, IH, elem_of_cons, elem_of_app,
      list_elem_of_singleton.
    case_bool_decide as Hc'; [rewrite elem_of_nil|rewrite list_elem_of_singleton];
      destruct (decide (c = c')) as [->|]; tauto.
Qed.

Lemma NoDup_first_after p s : NoDup (first_after p s).
Proof.
  revert p. induction s as [|c s IH]; intros p; [constructor|].
  rewrite first_after_cons. case_bool_decide; [apply IH|].
  cbn [app]. constructor; [|apply IH].
  rewrite elem_of_first_after, elem_of_app, list_elem_of_singleton. tauto.
Qed.

Lemma join_singletons (l : list C) : join ((λ c, [c]) <$> l) = l.
Proof. induction l as [|c l IH]; [done|]. cbn. unfold join in IH. by f_equal. Qed.

(** The loop, from any point of the scan: [seen] holds the characters read
    so far, [result] grows by the first occurrences that remain. *)
Lemma foldl_visit s : ∀ p (seen : gset C) (result : list C),
  (∀ c, c ∈ seen ↔ c ∈ p) →
  ∃ seen' result',
    foldl visit (seen, (λ c, [c]) <$> result) s
    = (seen', (λ c, [c]) <$> result')
    ∧ result' = result ++ first_after p s.
Proof.
  induction s as [|c s IH]; intros p seen result Hseen.
  - exists seen, result. cbn. by rewrite app_nil_r.
  - cbn [foldl visit]. rewrite first_after_cons.
    destruct (decide (c ∈ seen)) as [Hin|Hnotin].
    + rewrite bool_decide_eq_false_2 by tauto.
      rewrite bool_decide_eq_true_2 by (by apply Hseen).
      apply IH. intros c'. rewrite elem_of_app, list_elem_of_singleton.
      rewrite <- Hseen. split; [tauto|]. intros [?| ->]; done.
    + rewrite bool_decide_eq_true_2 by done.
      rewrite bool_decide_eq_false_2 by (by rewrite <- Hseen).
      destruct (IH (p ++ [c]) ({[c]} ∪ seen) (result ++ [c]))
        as (seen' & result' & Hrun & ->).
      { intros c'. rewrite elem_of_union, elem_of_singleton, elem_of_app,
          list_elem_of_singleton, Hseen. tauto. }
      exists seen'. eexists. rewrite fmap_app in Hrun. split; [exact Hrun|].
      by rewrite <- app_assoc.
Qed.

Lemma remove_duplicates_first_occurrences s :
  remove_duplicates s = first_occurrences s.
Proof.
  unfold remove_duplicates.
  destruct (foldl_visit s [] ∅ []) as (seen' & result' & Hrun & ->).
  { intros c. rewrite elem_of_nil. set_solver. }
  cbn [fmap list_fmap] in Hrun. rewrite Hrun, join_singletons. done.
Qed.

End RemoveDuplicatesFacts.

Section PalindromeFacts.

Context {C L : Type} `{EqDecision L}.
Context (isalnum : C → bool) (lower : C → L).
Implicit Types (s : list C) (c : C) (left right : Z).

Local Abbreviation F := (alnum_lowered isalnum lower).

(** The characters of [s] at the positions [[a, b]]. *)
Local Abbreviation seg s a b :=
  (take (Z.to_nat (b + 1 - a)) (drop (Z.to_nat a) s)).

Lemma seg_all s : seg s 0 (Z.of_nat (List.length s) - 1) = s.
Proof. cbn [Z.to_nat drop]. apply take_ge. lia. Qed.

Lemma seg_cons s a b c :
  0 ≤ a ≤ b → s !! Z.to_nat a = Some c → seg s a b = c :: seg s (a + 1) b.
Proof.
  intros Hab Hc.
  replace (Z.to_nat (b + 1 - a)) with (S (Z.to_nat (b + 1 - (a + 1)))) by lia.
  replace (Z.to_nat (a + 1)) with (S (Z.to_nat a)) by lia.
  rewrite (drop_S _ _ _ Hc). done.
Qed.

Lemma seg_snoc s a b c :
  0 ≤ a ≤ b → s !! Z.to_nat b = Some c → seg s a b = seg s a (b - 1) ++ [c].
Proof.
  intros Hab Hc.
  replace (Z.to_nat (b + 1 - a)) with (S (Z.to_nat (b - 1 + 1 - a))) by lia.
  apply take_S_r. rewrite lookup_drop, <- Hc. f_equal. lia.
Qed.

Lemma seg_one s a c : 0 ≤ a → s !! Z.to_nat a = Some c → seg s a a = [c].
Proof.
  intros Ha Hc. rewrite (seg_cons s a a c) by (done || lia).
  replace (Z.to_nat (a + 1 - (a + 1))) with 0%nat by lia. done.
Qed.

Lemma alnum_lowered_cons c s :
  F (c :: s) = if isalnum c then lower c :: F s else F s.
Proof.
  unfold alnum_lowered. destruct (isalnum c) eqn:Hc.
  - rewrite filter_cons_True by done. done.
  - rewrite filter_cons_False by congruence. done.
Qed.

Lemma alnum_lowered_snoc s c :
  F (s ++ [c]) = F s ++ if isalnum c then [lower c] else [].
Proof.
  unfold alnum_lowered at 1. rewrite filter_app, fmap_app.
  fold (F [c]). rewrite alnum_lowered_cons. done.
Qed.

Lemma char_at_in_range s i :
  0 ≤ i < Z.of_nat (List.length s) →
  ∃ c, s !! Z.to_nat i = Some c ∧ char_at s i = Returned c.
Proof.
  intros Hi. destruct (lookup_lt_is_Some_2 s (Z.to_nat i)) as [c Hc]; [lia|].
  exists c. split; [done|].
  unfold char_at. rewrite DynArrFacts.getitem_in_range, Hc by done. done.
Qed.

(** ** The inner loops *)

Lemma skip_left_spec s right (fuel : nat) : ∀ left,
  0 ≤ left → right < Z.of_nat (List.length s) → right - left ≤ Z.of_nat fuel →
  ∃ left',
    skip_left isalnum fuel s left right = Returned left'
    ∧ left ≤ left' ∧ (left' ≤ right ∨ left' = left)
    ∧ F (seg s left right) = F (seg s left' right)
    ∧ (left' < right →
       ∃ c, s !! Z.to_nat left' = Some c ∧ isalnum c = true).
Proof.
  assert (Hstop : ∀ fuel left, right ≤ left →
    ∃ left',
      skip_left isalnum fuel s left right = Returned left'
      ∧ left ≤ left' ∧ (left' ≤ right ∨ left' = left)
      ∧ F (seg s left right) = F (seg s left' right)
      ∧ (left' < right →
         ∃ c, s !! Z.to_nat left' = Some c ∧ isalnum c = true)).
  { intros f left Hle. exists left.
    destruct f; cbn [skip_left]; rewrite bool_decide_eq_false_2 by lia;
      cbn [obind]; (split_and!; [done|done|by right|done|lia]). }
  assert (Hfound : ∀ fuel left c, left < right → 0 ≤ left →
    s !! Z.to_nat left = Some c → char_at s left = Returned c →
    isalnum c = true →
    ∃ left',
      skip_left isalnum fuel s left right = Returned left'
      ∧ left ≤ left' ∧ (left' ≤ right ∨ left' = left)
      ∧ F (seg s left right) = F (seg s left' right)
      ∧ (left' < right →
         ∃ c, s !! Z.to_nat left' = Some c ∧ isalnum c = true)).
  { intros f left c Hlt Hleft Hc Hat Halnum. exists left.
    destruct f; cbn [skip_left]; rewrite bool_decide_eq_true_2 by lia;
      rewrite Hat; cbn [obind]; rewrite Halnum; cbn [negb];
      (split_and!; [done|done|by right|done|by eauto]). }
  induction fuel as [|fuel IH]; intros left Hleft Hright Hfuel.
  - apply Hstop. lia.
  - destruct (decide (right ≤ left)) as [Hle|Hlt]; [by apply Hstop|].
    destruct (char_at_in_range s left) as (c & Hc & Hat); [lia|].
    destruct (isalnum c) eqn:Halnum; [apply (Hfound _ _ c); done || lia|].
    destruct (IH (left + 1)) as (left' & Hrun & Hle & Hor & HF & Hal);
      [lia..|].
    exists left'. cbn [skip_left]. rewrite bool_decide_eq_true_2 by lia.
    rewrite Hat. cbn [obind]. rewrite Halnum. cbn [negb].
    split_and!; [done|lia|lia| |done].
    rewrite (seg_cons s left right c), alnum_lowered_cons, Halnum by (done || lia).
    done.
Qed.

Lemma skip_right_spec s left (fuel : nat) : ∀ right,
  0 ≤ left → right < Z.of_nat (List.length s) → right - left ≤ Z.of_nat fuel →
  ∃ right',
    skip_right isalnum fuel s left right = Returned right'
    ∧ right' ≤ right ∧ (left ≤ right' ∨ right' = right)
    ∧ F (seg s left right) = F (seg s left right')
    ∧ (left < right' →
       ∃ c, s !! Z.to_nat right' = Some c ∧ isalnum c = true).
Proof.
  assert (Hstop : ∀ fuel right, right ≤ left →
    ∃ right',
      skip_right isalnum fuel s left right = Returned right'
      ∧ right' ≤ right ∧ (left ≤ right' ∨ right' = right)
      ∧ F (seg s left right) = F (seg s left right')
      ∧ (left < right' →
         ∃ c, s !! Z.to_nat right' = Some c ∧ isalnum c = true)).
  { intros f right Hle. exists right.
    destruct f; cbn [skip_right]; rewrite bool_decide_eq_false_2 by lia;
      cbn [obind]; (split_and!; [done|done|by right|done|lia]). }
  assert (Hfound : ∀ fuel right c, left < right →
    s !! Z.to_nat right = Some c → char_at s right = Returned c →
    isalnum c = true →
    ∃ right',
      skip_right isalnum fuel s left right = Returned right'
      ∧ right' ≤ right ∧ (left ≤ right' ∨ right' = right)
      ∧ F (seg s left right) = F (seg s left right')
      ∧ (left < right' →
         ∃ c, s !! Z.to_nat right' = Some c ∧ isalnum c = true)).
  { intros f right c Hlt Hc Hat Halnum. exists right.
    destruct f; cbn [skip_right]; rewrite bool_decide_eq_true_2 by lia;
      rewrite Hat; cbn [obind]; rewrite Halnum; cbn [negb];
      (split_and!; [done|done|by right|done|by eauto]). }
  induction fuel as [|fuel IH]; intros right Hleft Hright Hfuel.
  - apply Hstop. lia.
  - destruct (decide (right ≤ left)) as [Hle|Hlt]; [by apply Hstop|].
    destruct (char_at_in_range s right) as (c & Hc & Hat); [lia|].
    destruct (isalnum c) eqn:Halnum; [apply (Hfound _ _ c); done || lia|].
    destruct (IH (right - 1)) as (right' & Hrun & Hle & Hor & HF & Hal);
      [lia..|].
    exists right'. cbn [skip_right]. rewrite bool_decide_eq_true_2 by lia.
    rewrite Hat. cbn [obind]. rewrite Halnum. cbn [negb].
    split_and!; [done|lia|lia| |done].
    rewrite (seg_snoc s left right c), alnum_lowered_snoc, Halnum, app_nil_r
      by (done || lia).
    done.
Qed.

(** ** The outer loop *)

Lemma reads_same_short (l : list L) : (List.length l ≤ 1)%nat → l = reverse l.
Proof. destruct l as [|x [|y l]]; cbn; [done|done|lia]. Qed.

Lemma reads_same_ends (x y : L) (m : list L) :
  x :: m ++ [y] = reverse (x :: m ++ [y]) ↔ x = y ∧ m = reverse m.
Proof.
  rewrite reverse_cons, reverse_snoc. cbn [app]. split.
  - intros Heq. injection Heq as -> Heq.
    apply app_inj_tail in Heq as [Hm _]. done.
  - intros [-> <-]. done.
Qed.

Lemma alnum_lowered_one c : (List.length (F [c]) ≤ 1)%nat.
Proof. rewrite alnum_lowered_cons. destruct (isalnum c); cbn; lia. Qed.

Lemma scan_stops s (fuel : nat) left right :
  right ≤ left → scan isalnum lower fuel s left right = Returned true.
Proof.
  intros Hle.
  destruct fuel; cbn [scan]; rewrite bool_decide_eq_false_2 by lia; done.
Qed.

Lemma scan_spec s (fuel : nat) : ∀ left right,
  0 ≤ left → right < Z.of_nat (List.length s) → left ≤ right + 1 →
  right - left ≤ Z.of_nat fuel →
  scan isalnum lower fuel s left right
  = Returned (bool_decide (F (seg s left right) = reverse (F (seg s left right)))).
Proof.
  assert (Hstop : ∀ fuel left right,
    0 ≤ left → right < Z.of_nat (List.length s) → left ≤ right + 1 →
    right ≤ left →
    scan isalnum lower fuel s left right
    = Returned (bool_decide (F (seg s left right)
                             = reverse (F (seg s left right))))).
  { intros f left right Hleft Hright Horder Hle.
    rewrite scan_stops by done. f_equal. symmetry.
    apply bool_decide_eq_true_2, reads_same_short.
    destruct (decide (left = right)) as [->|Hne].
    - destruct (char_at_in_range s right) as (c & Hc & _); [lia|].
      rewrite (seg_one s right c) by done. apply alnum_lowered_one.
    - replace (Z.to_nat (right + 1 - left)) with 0%nat by lia.
      rewrite take_0. cbn. lia. }
  induction fuel as [|fuel IH]; intros left right Hleft Hright Horder Hfuel.
  { apply Hstop; lia. }
  destruct (decide (right ≤ left)) as [Hle|Hlt]; [by apply Hstop|].
  cbn [scan]. rewrite bool_decide_eq_true_2 by lia.
  destruct (skip_left_spec s right (Z.to_nat (right - left)) left)
    as (left' & -> & Hl1 & Hl2 & HFl & Hal); [lia..|].
  cbn [obind].
  destruct (skip_right_spec s left' (Z.to_nat (right - left'))
              right)
    as (right' & -> & Hr1 & Hr2 & HFr & Har); [lia..|].
  cbn [obind].
  destruct (char_at_in_range s left') as (a & Ha & ->); [lia|].
  destruct (char_at_in_range s right') as (b & Hb & ->); [lia|].
  cbn [obind]. rewrite HFl, HFr.
  destruct (decide (left' = right')) as [->|Hne].
  - assert (a = b) as -> by congruence.
    rewrite bool_decide_eq_false_2 by (intros Hne; by apply Hne).
    rewrite scan_stops by lia. f_equal. symmetry.
    apply bool_decide_eq_true_2, reads_same_short.
    rewrite (seg_one s right' b) by (done || lia). apply alnum_lowered_one.
  - destruct Hal as (a' & Ha' & Halnum_a); [lia|].
    destruct Har as (b' & Hb' & Halnum_b); [lia|].
    assert (a' = a) as -> by congruence.
    assert (b' = b) as -> by congruence.
    rewrite (seg_cons s left' right' a) by (done || lia).
    rewrite (seg_snoc s (left' + 1) right' b) by (done || lia).
    rewrite alnum_lowered_cons, Halnum_a, alnum_lowered_snoc, Halnum_b.
    destruct (decide (lower a = lower b)) as [Heq|Hneq].
    + rewrite bool_decide_eq_false_2 by (intros Hne'; by apply Hne').
      rewrite IH by lia. f_equal. apply bool_decide_ext.
      rewrite reads_same_ends. tauto.
    + rewrite bool_decide_eq_true_2 by done. f_equal. symmetry.
      apply bool_decide_eq_false_2. rewrite reads_same_ends. tauto.
Qed.

(** [is_palindrome] always returns, and returns whether the lowered
    alphanumeric characters read the same in both directions. *)
Lemma is_palindrome_decides s :
  is_palindrome isalnum lower s = Returned (bool_decide (F s = reverse (F s))).
Proof.
  unfold is_palindrome. cbn zeta. rewrite scan_spec by lia.
  rewrite seg_all. done.
Qed.

Lemma short_reads_same s :
  s = [] ∨ List.length s = 1%nat → reads_same_both_ways isalnum lower s.
Proof.
  intros [->|Hlen]; [done|].
  destruct s as [|c [|c' s]]; try discriminate.
  apply reads_same_short, alnum_lowered_one.
Qed.

End PalindromeFacts.

(** ** The assertions of [test_string_functions], replayed on the model *)

Example test_is_palindrome :
  is_palindrome ascii_isalnum ascii_lower [] = Returned true
  ∧ is_palindrome ascii_isalnum ascii_lower (String.list_ascii_of_string "a")
    = Returned true
  ∧ is_palindrome ascii_isalnum ascii_lower
      (String.list_ascii_of_string "Madam")
    = Returned true.
Proof. by vm_compute. Qed.

Example test_remove_duplicates :
  remove_duplicates (String.list_ascii_of_string "hello")
  = String.list_ascii_of_string "helo"
  ∧ remove_duplicates (String.list_ascii_of_string "aabbcc")
    = String.list_ascii_of_string "abc"
  ∧ remove_duplicates (String.list_ascii_of_string "a")
    = String.list_ascii_of_string "a".
Proof. by vm_compute. Qed.

(** ** The two functions against the spec *)

(** Claim C8.  [is_palindrome(s)] returns [True] exactly when [s] is empty,
    has length 1, or its alphanumeric characters, lowercased, read the same
    from both ends, and [False] otherwise; it returns [True] on
    ["A man, a plan, a canal: Panama"] and [False] on ["race a car"]. *)
Theorem is_palindrome_correct :
  (∀ (C L : Type) (eq_dec : EqDecision L) (isalnum : C → bool)
     (lower : C → L) (s : list C),
     let spec := s = [] ∨ List.length s = 1%nat
                 ∨ reads_same_both_ways isalnum lower s in
     (is_palindrome isalnum lower s = Returned true ↔ spec)
     ∧ (is_palindrome isalnum lower s = Returned false ↔ ¬ spec))
  ∧ is_palindrome ascii_isalnum ascii_lower
      (String.list_ascii_of_string "A man, a plan, a canal: Panama")
    = Returned true
  ∧ is_palindrome ascii_isalnum ascii_lower
      (String.list_ascii_of_string "race a car")
    = Returned false.
Proof.
  split; [|split; reflexivity].
  intros C L eq_dec isalnum lower s spec.
  assert (Hspec : spec ↔ reads_same_both_ways isalnum lower s).
  { unfold spec. pose proof (short_reads_same isalnum lower s). tauto. }
  rewrite is_palindrome_decides, Hspec. unfold reads_same_both_ways.
  case_bool_decide; split; split; (done || discriminate || tauto).
Qed.

(** Claim C9.  [remove_duplicates(s)] is the string of the first occurrences
    of the characters of [s], in the order of these occurrences: it has the
    characters of [s], each once; [remove_duplicates("abcabc")] is
    ["abc"]. *)
Theorem remove_duplicates_correct :
  (∀ (C : Type) (eq_dec : EqDecision C) (countable : Countable C)
     (s : list C),
     remove_duplicates s = first_occurrences s
     ∧ NoDup (remove_duplicates s)
     ∧ ∀ c, c ∈ remove_duplicates s ↔ c ∈ s)
  ∧ remove_duplicates (String.list_ascii_of_string "abcabc")
    = String.list_ascii_of_string "abc".
Proof.
  split; [|by vm_compute].
  intros C eq_dec countable s.
  rewrite remove_duplicates_first_occurrences.
  split_and!; [done|apply (NoDup_first_after [] s)|].
  intros c. unfold first_occurrences.
  rewrite (elem_of_first_after [] s c), elem_of_nil. tauto.
Qed.

End StrUtilFacts.

(** * Further properties of the dynamic array *)

Module DynArrMore.
Import DynArr DynArrFacts.

Section More.

Context {T : Type}.
Implicit Types (self d : DynamicArray T) (l c : list (option T)).
Implicit Types (i j index : Z) (k : nat).

Local Abbreviation grow self :=
  ((if bool_decide (size self = capacity self) then _resize else ret tt) self).

(** ** The logical sequence *)

Lemma length_contents self :
  wf self → List.length (contents self) = Z.to_nat (size self).
Proof.
  intros (Hlen & Hsize & _). unfold contents. apply length_take_le. lia.
Qed.

Lemma lookup_contents self k :
  contents self !! k
  = if bool_decide (Z.of_nat k < size self) then data self !! k else None.
Proof.
  unfold contents. case_bool_decide.
  - apply lookup_take_lt. lia.
  - apply lookup_take_ge. lia.
Qed.

Lemma contents_eq d l :
  wf d → Z.of_nat (List.length l) = size d →
  (∀ k, (k < List.length l)%nat → data d !! k = l !! k) →
  contents d = l.
Proof.
  intros Hwf Hlen Hlk. apply list_eq. intros k. rewrite lookup_contents.
  case_bool_decide.
  - apply Hlk. lia.
  - symmetry. apply lookup_ge_None_2. lia.
Qed.

Lemma lookup_inserted {A} (c : list A) (n k : nat) (v : A) :
  (n ≤ List.length c)%nat →
  (take n c ++ v :: drop n c) !! k
  = if bool_decide (k < n)%nat then c !! k
    else if bool_decide (k = n) then Some v else c !! (k - 1)%nat.
Proof.
  intros Hn. repeat case_bool_decide.
  - rewrite lookup_app_l by (rewrite length_take_le; lia).
    by apply lookup_take_lt.
  - subst k. rewrite lookup_app_r by (rewrite length_take_le; lia).
    rewrite length_take_le by lia. by rewrite Nat.sub_diag.
  - rewrite lookup_app_r by (rewrite length_take_le; lia).
    rewrite length_take_le by lia.
    replace (k - n)%nat with (S (k - n - 1)) by lia.
    change (drop n c !! (k - n - 1)%nat = c !! (k - 1)%nat).
    rewrite lookup_drop. f_equal. lia.
Qed.

Lemma lookup_deleted {A} (c : list A) (n k : nat) :
  (n ≤ List.length c)%nat →
  (take n c ++ drop (S n) c) !! k
  = if bool_decide (k < n)%nat then c !! k else c !! S k.
Proof.
  intros Hn. case_bool_decide.
  - rewrite lookup_app_l by (rewrite length_take_le; lia).
    by apply lookup_take_lt.
  - rewrite lookup_app_r by (rewrite length_take_le; lia).
    rewrite length_take_le by lia. rewrite lookup_drop. f_equal. lia.
Qed.

(** ** Each method against the sequence *)

Lemma append_refines self element :
  wf self →
  ∃ d', append element self = (Returned tt, d') ∧ wf d'
        ∧ contents d' = contents self ++ [element].
Proof.
  intros Hwf. pose proof (wf_append self element Hwf) as Hwf'.
  pose proof (length_contents self Hwf) as Hlc.
  destruct (append_spec self element Hwf) as (d1 & Hgrow & Hrun).
  destruct (grow_spec self Hwf) as (d & Hgrow' & Hs & _ & Hl & Hlt & _).
  rewrite Hgrow in Hgrow'. injection Hgrow' as <-.
  pose proof Hwf as (_ & Hsize & _).
  rewrite Hrun in Hwf'. eexists. split_and!; [exact Hrun|exact Hwf'|].
  apply contents_eq; [done|cbn [size]; rewrite length_app; cbn; lia|].
  intros k. rewrite length_app. cbn [List.length data]. intros Hk.
  destruct (decide (k = Z.to_nat (size self))) as [->|Hne].
  - rewrite list_lookup_insert_eq by lia.
    rewrite lookup_app_r by lia. rewrite Hlc, Nat.sub_diag. done.
  - rewrite list_lookup_insert_ne by done.
    rewrite lookup_app_l by lia. rewrite lookup_contents.
    rewrite bool_decide_eq_true_2 by lia. apply (grow_keeps self); done || lia.
Qed.

Lemma insert_refines self index element :
  wf self → 0 ≤ index ≤ size self →
  ∃ d', insert index element self = (Returned tt, d') ∧ wf d'
        ∧ contents d'
          = take (Z.to_nat index) (contents self)
            ++ element :: drop (Z.to_nat index) (contents self).
Proof.
  intros Hwf Hindex. pose proof (wf_insert self index element Hwf) as Hwf'.
  pose proof (length_contents self Hwf) as Hlc.
  destruct (insert_spec self index element Hwf Hindex)
    as (d1 & d' & Hgrow & Hrun & Hc & Hs & Hl & Hlk).
  rewrite Hrun in Hwf'. exists d'. split_and!; [done..|].
  assert (Hlen : List.length (take (Z.to_nat index) (contents self)
                              ++ element :: drop (Z.to_nat index) (contents self))
                 = S (Z.to_nat (size self))).
  { rewrite length_app, length_take_le by lia. cbn [List.length].
    rewrite length_drop. lia. }
  apply contents_eq; [done|lia|].
  intros k. rewrite Hlen. intros Hk.
  rewrite lookup_inserted by lia. rewrite Hlk.
  destruct (decide (Z.of_nat k = index)) as [Heq|Hne].
  - rewrite bool_decide_eq_true_2 by done.
    rewrite bool_decide_eq_false_2 by lia.
    rewrite bool_decide_eq_true_2 by lia. done.
  - rewrite (bool_decide_eq_false_2 (Z.of_nat k = index)) by done.
    rewrite (bool_decide_eq_false_2 (k = Z.to_nat index)) by lia.
    rewrite !lookup_contents.
    destruct (decide (index < Z.of_nat k)) as [Hgt|Hle].
    + rewrite bool_decide_eq_true_2 by lia.
      rewrite bool_decide_eq_false_2 by lia.
      rewrite bool_decide_eq_true_2 by lia.
      apply (grow_keeps self); done || lia.
    + rewrite bool_decide_eq_false_2 by lia.
      rewrite bool_decide_eq_true_2 by lia.
      rewrite bool_decide_eq_true_2 by lia.
      apply (grow_keeps self); done || lia.
Qed.

Lemma delete_refines self index :
  wf self → 0 ≤ index < size self →
  ∃ x d', delete index self = (Returned x, d') ∧ wf d'
          ∧ contents self !! Z.to_nat index = Some x
          ∧ contents d'
            = take (Z.to_nat index) (contents self)
              ++ drop (S (Z.to_nat index)) (contents self)
          ∧ capacity d' = capacity self.
Proof.
  intros Hwf Hindex. pose proof (wf_delete self index Hwf) as Hwf'.
  pose proof (length_contents self Hwf) as Hlc.
  destruct (delete_spec self index Hwf Hindex)
    as (x & d' & Hx & Hrun & Hc & Hs & Hl & Hlk).
  rewrite Hrun in Hwf'. exists x, d'. split_and!; [done|done| | |done].
  { rewrite lookup_contents, bool_decide_eq_true_2 by lia. done. }
  assert (Hlen : List.length (take (Z.to_nat index) (contents self)
                              ++ drop (S (Z.to_nat index)) (contents self))
                 = Z.to_nat (size self - 1)).
  { rewrite length_app, length_take_le, length_drop by lia. lia. }
  apply contents_eq; [done|lia|].
  intros k. rewrite Hlen. intros Hk.
  rewrite lookup_deleted by lia. rewrite Hlk.
  rewrite (bool_decide_eq_false_2 (Z.of_nat k = size self - 1)) by lia.
  rewrite !lookup_contents.
  destruct (decide (index ≤ Z.of_nat k)) as [Hge|Hlt].
  - rewrite bool_decide_eq_true_2 by lia.
    rewrite bool_decide_eq_false_2 by lia.
    rewrite bool_decide_eq_true_2 by lia. done.
  - rewrite bool_decide_eq_false_2 by lia.
    rewrite bool_decide_eq_true_2 by lia.
    rewrite bool_decide_eq_true_2 by lia. done.
Qed.

Lemma get_refines self index :
  wf self → 0 ≤ index < size self →
  ∃ x, get index self = (Returned x, self)
       ∧ contents self !! Z.to_nat index = Some x.
Proof.
  intros Hwf Hindex. destruct (get_spec self index Hwf Hindex) as (x & Hx & ->).
  exists x. split; [done|].
  rewrite lookup_contents, bool_decide_eq_true_2 by lia. done.
Qed.

(** ** Unused slots *)

Local Abbreviation clean self :=
  (∀ k, size self ≤ Z.of_nat k < capacity self → data self !! k = Some None).

Lemma grow_clean self d1 :
  wf self → clean self → grow self = (Returned tt, d1) → clean d1.
Proof.
  intros Hwf Hclean Hrun k.
  destruct (grow_spec self Hwf) as (d & Hgrow & Hs & Hc & _ & _ & Hlk).
  rewrite Hrun in Hgrow. injection Hgrow as <-.
  rewrite Hs, Hc, Hlk. intros Hk.
  destruct (decide (size self = capacity self)) as [Hfull|Hroom].
  - rewrite !bool_decide_eq_true_2 in * by done.
    rewrite bool_decide_eq_false_2, bool_decide_eq_true_2 by lia. done.
  - rewrite !bool_decide_eq_false_2 in * by done. by apply Hclean.
Qed.

Lemma clean_call (o : op T) self :
  wf self → clean self → clean (call o self).2.
Proof.
  intros Hwf Hclean. pose proof Hwf as (_ & Hsize & _).
  destruct o as [v|i v|i|i]; cbn [call]; rewrite ?returns_None_state.
  - destruct (append_spec self v Hwf) as (d1 & Hgrow & ->).
    pose proof (grow_clean self d1 Hwf Hclean Hgrow) as Hclean1.
    destruct (grow_spec self Hwf) as (d & Hgrow' & Hs & _).
    rewrite Hgrow in Hgrow'. injection Hgrow' as <-.
    cbn [snd capacity size data]. intros k Hk.
    rewrite list_lookup_insert_ne by lia. apply Hclean1. lia.
  - destruct (decide (0 ≤ i ≤ size self)) as [Hin|Hout];
      [|by rewrite insert_rejects by lia].
    destruct (insert_spec self i v Hwf Hin)
      as (d1 & d' & Hgrow & -> & Hc & Hs & Hl & Hlk).
    pose proof (grow_clean self d1 Hwf Hclean Hgrow) as Hclean1.
    destruct (grow_spec self Hwf) as (d & Hgrow' & Hs1 & _).
    rewrite Hgrow in Hgrow'. injection Hgrow' as <-.
    cbn [snd]. intros k Hk. rewrite Hlk, !bool_decide_eq_false_2 by lia.
    apply Hclean1. lia.
  - destruct (decide (0 ≤ i < size self)) as [Hin|Hout];
      [|by rewrite delete_rejects by lia].
    destruct (delete_spec self i Hwf Hin)
      as (x & d' & _ & -> & Hc & Hs & Hl & Hlk).
    cbn [snd]. intros k Hk. rewrite Hlk.
    destruct (decide (Z.of_nat k = size self - 1)) as [Heq|Hne].
    + by rewrite bool_decide_eq_true_2.
    + rewrite !bool_decide_eq_false_2 by lia. apply Hclean. lia.
  - by rewrite wf_get.
Qed.

Lemma clean_run (ops : list (op T)) self :
  wf self → clean self → clean (run ops self).
Proof.
  revert self. induction ops as [|o ops IH]; intros self Hwf Hclean; [done|].
  apply IH; [by apply wf_call|by apply clean_call].
Qed.

(** Property X1. In every state the buffer is the logical sequence followed
    by [None] in each of the [capacity - size] unused slots: nothing stale
    is kept after a deletion or a growth. *)
Theorem unused_slots_hold_None self :
  reachable self →
  data self
  = contents self ++ replicate (Z.to_nat (capacity self - size self)) None.
Proof.
  intros [ops ->].
  assert (Hwf : wf (run ops (@init T))) by apply wf_run, wf_init.
  assert (Hclean : clean (run ops (@init T))).
  { apply clean_run; [apply wf_init|]. intros k Hk.
    cbn in Hk. destruct k as [|[|k]]; done || lia. }
  set (self := run ops init) in *.
  pose proof Hwf as (Hlen & Hsize & _).
  apply list_eq. intros k.
  destruct (decide (Z.of_nat k < size self)) as [Hlt|Hge].
  - rewrite lookup_app_l by (rewrite length_contents by done; lia).
    rewrite lookup_contents, bool_decide_eq_true_2 by done. done.
  - rewrite lookup_app_r by (rewrite length_contents by done; lia).
    rewrite length_contents by done.
    destruct (decide (Z.of_nat k < capacity self)) as [Hin|Hout].
    + rewrite lookup_replicate_2 by lia. apply Hclean. lia.
    + rewrite lookup_ge_None_2 by lia. symmetry.
      apply lookup_replicate_None. lia.
Qed.

(** ** The methods as list operations *)

(** Property X2. [append] never fails: it adds the element at the end of the
    logical sequence, keeps every earlier element in place, and the element
    is then read back by [get] at the old size. *)
Theorem append_adds_at_end self element :
  reachable self →
  ∃ d',
    append element self = (Returned tt, d')
    ∧ contents d' = contents self ++ [element]
    ∧ size d' = size self + 1
    ∧ get (size self) d' = (Returned element, d').
Proof.
  intros Hwf%reachable_wf.
  destruct (append_refines self element Hwf) as (d' & Hrun & Hwf' & Hc).
  pose proof (length_contents self Hwf) as Hlc.
  pose proof (length_contents d' Hwf') as Hlc'.
  rewrite Hc, length_app in Hlc'. cbn [List.length] in Hlc'.
  pose proof Hwf as (_ & Hsize & _). pose proof Hwf' as (_ & Hsize' & _).
  exists d'. split_and!; [done|done|lia|].
  destruct (get_refines d' (size self) Hwf') as (x & -> & Hx); [lia|].
  rewrite Hc, lookup_app_r, Hlc, Nat.sub_diag in Hx by lia.
  by injection Hx as <-.
Qed.

(** Property X3. A valid [insert(i, v)] turns the logical sequence [c] into
    [c[:i] + [v] + c[i:]]. *)
Theorem insert_splices self index element :
  reachable self → 0 ≤ index ≤ size self →
  ∃ d',
    insert index element self = (Returned tt, d')
    ∧ contents d'
      = take (Z.to_nat index) (contents self)
        ++ element :: drop (Z.to_nat index) (contents self).
Proof.
  intros Hwf%reachable_wf Hindex.
  destruct (insert_refines self index element Hwf Hindex)
    as (d' & Hrun & _ & Hc).
  by exists d'.
Qed.

(** Property X4. A valid [delete(i)] returns the element [c[i]] of the
    logical sequence [c], leaves [c[:i] + c[i+1:]], and keeps the capacity:
    the buffer never shrinks. *)
Theorem delete_removes self index :
  reachable self → 0 ≤ index < size self →
  ∃ x d',
    delete index self = (Returned x, d')
    ∧ contents self !! Z.to_nat index = Some x
    ∧ contents d'
      = take (Z.to_nat index) (contents self)
        ++ drop (S (Z.to_nat index)) (contents self)
    ∧ capacity d' = capacity self.
Proof.
  intros Hwf%reachable_wf Hindex.
  destruct (delete_refines self index Hwf Hindex)
    as (x & d' & Hrun & _ & Hx & Hc & Hcap).
  by exists x, d'.
Qed.

(** Property X5. [insert(i, v)] followed by [delete(i)] returns [v] and
    restores the logical sequence and the size (the capacity may have
    doubled on the way). *)
Theorem insert_then_delete self index element :
  reachable self → 0 ≤ index ≤ size self →
  ∃ d1 d2,
    insert index element self = (Returned tt, d1)
    ∧ delete index d1 = (Returned element, d2)
    ∧ contents d2 = contents self
    ∧ size d2 = size self
    ∧ capacity d2 = capacity d1.
Proof.
  intros Hwf%reachable_wf Hindex.
  pose proof (length_contents self Hwf) as Hlc.
  destruct (insert_refines self index element Hwf Hindex)
    as (d1 & Hins & Hwf1 & Hc1).
  pose proof (length_contents d1 Hwf1) as Hlc1.
  assert (Hlt : (Z.to_nat index ≤ List.length (contents self))%nat) by lia.
  assert (Hs1 : size d1 = size self + 1).
  { rewrite Hc1, length_app, length_take_le in Hlc1 by done.
    cbn [List.length] in Hlc1. rewrite length_drop in Hlc1.
    destruct Hwf1 as (_ & ? & _). lia. }
  destruct (delete_refines d1 index Hwf1) as (x & d2 & Hdel & Hwf2 & Hx & Hc2 & Hcap);
    [lia|].
  pose proof (length_contents d2 Hwf2) as Hlc2.
  assert (x = element) as ->.
  { rewrite Hc1, lookup_inserted in Hx by done.
    rewrite bool_decide_eq_false_2, bool_decide_eq_true_2 in Hx by lia.
    by injection Hx as <-. }
  assert (Hc : contents d2 = contents self).
  { rewrite Hc2, Hc1.
    rewrite take_app_length' by (rewrite length_take_le; done).
    rewrite cons_middle, app_assoc.
    rewrite drop_app_length'
      by (rewrite length_app, length_take_le by done; cbn; lia).
    apply take_drop. }
  exists d1, d2. split_and!; [done|done|done| |done].
  rewrite Hc in Hlc2. destruct Hwf2 as (_ & ? & _).
  destruct Hwf as (_ & ? & _). lia.
Qed.

(** ** Sequences of calls *)

Lemma call_refines (o : op T) self :
  wf self →
  (call o self).1 = list_result o (contents self)
  ∧ contents (call o self).2 = list_call o (contents self).
Proof.
  intros Hwf. pose proof (length_contents self Hwf) as Hlc.
  pose proof Hwf as (_ & Hsize & _).
  destruct o as [v|i v|i|i]; cbn [call list_result list_call].
  - destruct (append_refines self v Hwf) as (d' & -> & _ & Hc). done.
  - case_bool_decide as Hin.
    + destruct (insert_refines self i v Hwf) as (d' & -> & _ & Hc); [lia|].
      done.
    + rewrite insert_rejects by lia. done.
  - case_bool_decide as Hin.
    + destruct (delete_refines self i Hwf) as (x & d' & -> & _ & Hx & Hc & _);
        [lia|].
      rewrite Hx. done.
    + rewrite delete_rejects by lia. done.
  - case_bool_decide as Hin.
    + destruct (get_refines self i Hwf) as (x & -> & Hx); [lia|].
      rewrite Hx. done.
    + rewrite get_rejects by lia. done.
Qed.

(** Property X6. In every state, a public call returns (or raises) what the
    same call on a plain sequence does, and changes the logical sequence in
    the same way. *)
Theorem call_simulates_list (o : op T) self :
  reachable self →
  (call o self).1 = list_result o (contents self)
  ∧ contents (call o self).2 = list_call o (contents self).
Proof. intros Hwf%reachable_wf. by apply call_refines. Qed.

Lemma run_refines (ops : list (op T)) self :
  wf self →
  contents (run ops self) = foldl (λ l o, list_call o l) (contents self) ops.
Proof.
  revert self. induction ops as [|o ops IH]; intros self Hwf; [done|].
  cbn [foldl]. destruct (call_refines o self Hwf) as [_ <-].
  apply IH, wf_call, Hwf.
Qed.

(** Property X7. After any sequence of calls on a fresh array, failed ones
    included, the logical sequence is the one the same calls build from the
    empty sequence, and its length is [size]. *)
Theorem run_simulates_list (ops : list (op T)) :
  let self := run ops init in
  contents self = foldl (λ l o, list_call o l) [] ops
  ∧ Z.of_nat (List.length (contents self)) = size self.
Proof.
  intros self. assert (Hwf : wf self) by apply wf_run, wf_init.
  split; [apply (run_refines ops init), wf_init|].
  rewrite length_contents by done. destruct Hwf as (_ & ? & _). lia.
Qed.

(** ** When the capacity changes *)

Lemma call_capacity (o : op T) self :
  wf self →
  (capacity (call o self).2 = capacity self
   ∧ size (call o self).2 ≤ size self + 1)
  ∨ (capacity (call o self).2 = 2 * capacity self
     ∧ size self = capacity self
     ∧ size (call o self).2 = size self + 1).
Proof.
  intros Hwf.
  assert (Hgrow : ∀ d1, grow self = (Returned tt, d1) →
            (size self ≠ capacity self ∧ capacity d1 = capacity self)
            ∨ (size self = capacity self ∧ capacity d1 = 2 * capacity self)).
  { intros d1 Hrun.
    destruct (grow_spec self Hwf) as (d & Hgrow & _ & Hc & _).
    rewrite Hrun in Hgrow. injection Hgrow as <-.
    rewrite Hc. case_bool_decide; [right|left]; split; done || lia. }
  destruct o as [v|i v|i|i]; cbn [call]; rewrite ?returns_None_state.
  - destruct (append_spec self v Hwf) as (d1 & Hrun & ->).
    cbn [snd capacity size]. destruct (Hgrow d1 Hrun) as [[? ->]|[? ->]];
      [left|right]; split_and!; done || lia.
  - destruct (decide (0 ≤ i ≤ size self)) as [Hin|Hout].
    + destruct (insert_spec self i v Hwf Hin)
        as (d1 & d' & Hrun & -> & Hc & Hs & _).
      cbn [snd]. rewrite Hc, Hs.
      destruct (Hgrow d1 Hrun) as [[? ->]|[? ->]];
        [left|right]; split_and!; done || lia.
    + rewrite insert_rejects by lia. left. cbn [snd]. lia.
  - destruct (decide (0 ≤ i < size self)) as [Hin|Hout].
    + destruct (delete_spec self i Hwf Hin) as (x & d' & _ & -> & Hc & Hs & _).
      left. cbn [snd]. lia.
    + rewrite delete_rejects by lia. left. cbn [snd]. lia.
  - rewrite wf_get by done. left. lia.
Qed.

(** Property X8. A call changes the capacity only by doubling it, and only
    when it is an [append] or a valid [insert] on a full array; [delete],
    [get] and rejected calls keep it. *)
Theorem capacity_doubles_only_when_full (o : op T) self :
  reachable self →
  capacity (call o self).2
  = match o with
    | Append _ =>
        if bool_decide (size self = capacity self)
        then 2 * capacity self else capacity self
    | Insert index _ =>
        if bool_decide (0 ≤ index ≤ size self)
           && bool_decide (size self = capacity self)
        then 2 * capacity self else capacity self
    | Delete _ | Get _ => capacity self
    end.
Proof.
  intros Hwf%reachable_wf.
  pose proof (wf_capacity_ge_2 self Hwf) as Hcap.
  destruct (call_capacity o self Hwf) as [[Hc Hs]|(Hc & Hfull & Hs)].
  - rewrite Hc. destruct o as [v|i v|i|i]; [| |done..].
    + case_bool_decide as Hfull; [|done]. exfalso.
      cbn [call] in Hc. rewrite returns_None_state in Hc.
      destruct (append_spec self v Hwf) as (d1 & Hgrow & Hrun).
      rewrite Hrun in Hc. cbn [snd capacity] in Hc.
      destruct (grow_spec self Hwf) as (d & Hgrow' & _ & Hc1 & _).
      rewrite Hgrow in Hgrow'. injection Hgrow' as <-.
      rewrite bool_decide_eq_true_2 in Hc1 by done. lia.
    + case_bool_decide as Hin; [|done].
      case_bool_decide as Hfull; [|done]. exfalso.
      cbn [call] in Hc. rewrite returns_None_state in Hc.
      destruct (insert_spec self i v Hwf Hin)
        as (d1 & d' & Hgrow & Hrun & Hc' & _).
      rewrite Hrun in Hc. cbn [snd] in Hc.
      destruct (grow_spec self Hwf) as (d & Hgrow' & _ & Hc1 & _).
      rewrite Hgrow in Hgrow'. injection Hgrow' as <-.
      rewrite bool_decide_eq_true_2 in Hc1 by done. lia.
  - rewrite Hc. destruct o as [v|i v|i|i].
    + by rewrite bool_decide_eq_true_2.
    + rewrite (bool_decide_eq_true_2 (size self = capacity self)) by done.
      case_bool_decide as Hin; [done|]. exfalso.
      cbn [call] in Hs. rewrite insert_rejects in Hs by lia.
      cbn [returns_None snd] in Hs. lia.
    + exfalso. cbn [call] in Hs. pose proof Hwf as (_ & ? & _).
      destruct (decide (0 ≤ i < size self)) as [Hin|Hout].
      * destruct (delete_spec self i Hwf Hin) as (x & d' & _ & Hrun & _ & Hs' & _).
        rewrite Hrun in Hs. cbn [snd] in Hs. lia.
      * rewrite delete_rejects in Hs by lia. cbn [snd] in Hs. lia.
    + exfalso. cbn [call] in Hs. rewrite wf_get in Hs by done. lia.
Qed.

(** Property X9. The capacity always suffices for the largest size reached
    so far, and it is less than twice that size unless it is still the
    initial [2]: the buffer is never more than half wasted at the peak. *)
Theorem capacity_tracks_peak_size (ops : list (op T)) :
  let self := run ops init in
  (∀ ops', ops' `prefix_of` ops → size (run ops' init) ≤ capacity self)
  ∧ (capacity self = 2
     ∨ ∃ ops', ops' `prefix_of` ops
               ∧ capacity self < 2 * size (run ops' (@init T))).
Proof.
  induction ops as [|o ops IH] using rev_ind.
  - split; [|by left]. intros ops' ->%prefix_nil_inv. done.
  - cbn zeta in *. destruct IH as [Hpeak Hhalf].
    rewrite run_snoc. set (self := run ops init) in *.
    assert (Hwf : wf self) by apply wf_run, wf_init.
    pose proof (wf_call o self Hwf) as (_ & Hsize' & _).
    pose proof (capacity_call_mono o self Hwf) as Hmono.
    split.
    + intros ops' [k Hk].
      destruct k as [|o' k _] using rev_ind.
      * rewrite app_nil_r in Hk. subst ops'. rewrite run_snoc.
        fold self. lia.
      * rewrite app_assoc in Hk. apply app_inj_tail in Hk as [-> _].
        etrans; [apply Hpeak; by eexists|done].
    + destruct (call_capacity o self Hwf) as [[Hc _]|(Hc & Hfull & Hs)].
      * rewrite Hc. destruct Hhalf as [?|(ops' & Hpre & Hlt)]; [by left|].
        right. exists ops'. split; [|done].
        etrans; [done|]. by apply prefix_app_r.
      * right. exists (ops ++ [o]). split; [done|].
        rewrite run_snoc. fold self. lia.
Qed.

(** ** Rendering *)

Ltac mstep := erewrite bind_returned by reflexivity.

Lemma render_loop_spec (str_elem : T → string) self n (m : nat) :
  ∀ a (acc : list string),
  m = Z.to_nat (n - a) → 0 ≤ a → n ≤ Z.of_nat (List.length (data self)) →
  for_ (PyList.range a n)
    (λ i (elements : list string),
       bind (data_get i) (λ x, ret (elements ++ [str_value str_elem x])))
    acc self
  = (Returned
       (acc ++ (str_value str_elem
                  <$> take (Z.to_nat (n - a)) (drop (Z.to_nat a) (data self)))),
     self).
Proof.
  induction m as [|m IH]; intros a acc Hm Ha Hn.
  - rewrite range_nil by lia. replace (Z.to_nat (n - a)) with 0%nat by lia.
    rewrite take_0. cbn. by rewrite app_nil_r.
  - rewrite range_cons by lia. cbn [for_].
    destruct (data_get_in_range self a) as (x & Hx & Hget); [lia|].
    erewrite bind_returned;
      [|rewrite (bind_returned _ _ _ _ _ Hget); reflexivity].
    rewrite IH by lia.
    rewrite (drop_S _ _ _ Hx).
    replace (Z.to_nat (n - a)) with (S (Z.to_nat (n - (a + 1)))) by lia.
    replace (Z.to_nat (a + 1)) with (S (Z.to_nat a)) by lia.
    cbn [take fmap list_fmap]. by rewrite <- app_assoc.
Qed.

(** Property X10. In every state [__str__] returns without touching the
    object: between the brackets it lists [str] of each element of the
    logical sequence, in order, then one ["_"] per unused slot, [capacity]
    items in all, and then the size and the capacity in decimal. *)
Theorem str_lists_elements_then_blanks (str_elem : T → string) self :
  reachable self →
  let items :=
    (str_value str_elem <$> contents self)
    ++ replicate (Z.to_nat (capacity self - size self)) "_" in
  __str__ str_elem self
  = (Returned
       ("[" +:+ String.concat ", " items +:+ "] (size: " +:+ pretty (size self)
        +:+ ", capacity: " +:+ pretty (capacity self) +:+ ")"),
     self)
  ∧ Z.of_nat (List.length items) = capacity self.
Proof.
  intros Hwf%reachable_wf items.
  pose proof (length_contents self Hwf) as Hlc.
  pose proof Hwf as (Hlen & Hsize & _).
  split.
  - unfold __str__. mstep.
    rewrite (bind_returned _ _ _ _ _
               (render_loop_spec str_elem self (size self)
                  (Z.to_nat (size self - 0)) 0 [] eq_refl
                  (Z.le_refl 0) ltac:(lia))).
    do 4 mstep. cbn [app Z.to_nat drop]. rewrite Z.sub_0_r. done.
  - unfold items. rewrite length_app, length_fmap, length_replicate. lia.
Qed.

End More.

(** ** The statements at the array of the test suite *)

Lemma unused_slots_hold_None_witness :
  reachable test_array
  ∧ data test_array
    = contents test_array
      ++ replicate (Z.to_nat (capacity test_array - size test_array)) None.
Proof.
  split; [by eexists|].
  apply (unused_slots_hold_None test_array); by eexists.
Defined.

Lemma append_adds_at_end_witness :
  reachable test_array
  ∧ ∃ d',
      append (Some 40) test_array = (Returned tt, d')
      ∧ contents d' = contents test_array ++ [Some 40]
      ∧ size d' = size test_array + 1
      ∧ get (size test_array) d' = (Returned (Some 40), d').
Proof.
  split; [by eexists|].
  apply (append_adds_at_end test_array (Some 40)); by eexists.
Defined.

Lemma insert_splices_witness :
  reachable test_array ∧ 0 ≤ 1 ≤ size test_array
  ∧ ∃ d',
      insert 1 (Some 15) test_array = (Returned tt, d')
      ∧ contents d'
        = take (Z.to_nat 1) (contents test_array)
          ++ Some 15 :: drop (Z.to_nat 1) (contents test_array).
Proof.
  assert (0 ≤ 1 ≤ size test_array) as Hindex by (vm_compute; split; discriminate).
  split_and!; [by eexists|apply Hindex..|].
  apply (insert_splices test_array 1 (Some 15)); [by eexists|apply Hindex].
Defined.

Lemma delete_removes_witness :
  reachable test_array ∧ 0 ≤ 1 < size test_array
  ∧ ∃ x d',
      delete 1 test_array = (Returned x, d')
      ∧ contents test_array !! Z.to_nat 1 = Some x
      ∧ contents d'
        = take (Z.to_nat 1) (contents test_array)
          ++ drop (S (Z.to_nat 1)) (contents test_array)
      ∧ capacity d' = capacity test_array.
Proof.
  assert (0 ≤ 1 < size test_array) as Hindex by (vm_compute; split; done).
  split_and!; [by eexists|apply Hindex..|].
  apply (delete_removes test_array 1); [by eexists|apply Hindex].
Defined.

Lemma insert_then_delete_witness :
  reachable test_array ∧ 0 ≤ 3 ≤ size test_array
  ∧ ∃ d1 d2,
      insert 3 (Some 40) test_array = (Returned tt, d1)
      ∧ delete 3 d1 = (Returned (Some 40), d2)
      ∧ contents d2 = contents test_array
      ∧ size d2 = size test_array
      ∧ capacity d2 = capacity d1.
Proof.
  assert (0 ≤ 3 ≤ size test_array) as Hindex by (vm_compute; split; discriminate).
  split_and!; [by eexists|apply Hindex..|].
  apply (insert_then_delete test_array 3 (Some 40)); [by eexists|apply Hindex].
Defined.

Lemma call_simulates_list_witness :
  reachable test_array
  ∧ (call (Delete 1) test_array).1
    = list_result (Delete 1) (contents test_array)
  ∧ contents (call (Delete 1) test_array).2
    = list_call (Delete 1) (contents test_array).
Proof.
  split; [by eexists|].
  apply (call_simulates_list (Delete 1) test_array); by eexists.
Defined.

Lemma capacity_doubles_only_when_full_witness :
  reachable test_array
  ∧ capacity (call (Append (Some 40)) test_array).2
    = if bool_decide (size test_array = capacity test_array)
      then 2 * capacity test_array else capacity test_array.
Proof.
  split; [by eexists|].
  apply (capacity_doubles_only_when_full (Append (Some 40)) test_array);
    by eexists.
Defined.

Lemma str_lists_elements_then_blanks_witness :
  reachable test_array
  ∧ let items :=
      (str_value pretty <$> contents test_array)
      ++ replicate (Z.to_nat (capacity test_array - size test_array)) "_" in
    __str__ pretty test_array
    = (Returned
         ("[" +:+ String.concat ", " items +:+ "] (size: "
          +:+ pretty (size test_array) +:+ ", capacity: "
          +:+ pretty (capacity test_array) +:+ ")"),
       test_array)
    ∧ Z.of_nat (List.length items) = capacity test_array.
Proof.
  split; [by eexists|].
  apply (str_lists_elements_then_blanks pretty test_array); by eexists.
Defined.

Example test_str_of_test_array :
  (__str__ pretty test_array).1
  = Returned "[10, 20, 30, _] (size: 3, capacity: 4)".
Proof. by vm_compute. Qed.

End DynArrMore.

(** * Further properties of the string utilities *)

Module StrUtilMore.
Import StrUtil StrUtilFacts.

Section ReverseStringFacts.

Context {A : Type}.
Implicit Types (s r : list A) (left right : Z).

Lemma store_at_in_range s i x :
  0 ≤ i < Z.of_nat (List.length s) →
  store_at s i x = Returned (<[Z.to_nat i := x]> s).
Proof.
  intros Hi. unfold store_at.
  rewrite DynArrFacts.setitem_in_range by done. done.
Qed.

(** The loop from [left] and [right]: the elements at the positions
    [[left, right]] end up mirrored, the others stay. *)
Lemma reverse_loop_spec (fuel : nat) : ∀ s left right,
  0 ≤ left → right < Z.of_nat (List.length s) → left ≤ right + 1 →
  right - left ≤ Z.of_nat fuel →
  ∃ r,
    reverse_loop fuel s left right = Returned r
    ∧ List.length r = List.length s
    ∧ ∀ k : nat, r !! k =
        if bool_decide (left ≤ Z.of_nat k ≤ right)
        then s !! Z.to_nat (left + right - Z.of_nat k) else s !! k.
Proof.
  assert (Hstop : ∀ fuel s left right, right ≤ left → left ≤ right + 1 →
    ∃ r,
      reverse_loop fuel s left right = Returned r
      ∧ List.length r = List.length s
      ∧ ∀ k : nat, r !! k =
          if bool_decide (left ≤ Z.of_nat k ≤ right)
          then s !! Z.to_nat (left + right - Z.of_nat k) else s !! k).
  { intros f s left right Hle Horder. exists s.
    destruct f; cbn [reverse_loop]; rewrite bool_decide_eq_false_2 by lia;
      (split_and!; [done..|]); intros k; case_bool_decide; try done;
      f_equal; lia. }
  induction fuel as [|fuel IH]; intros s left right Hleft Hright Horder Hfuel.
  { apply Hstop; lia. }
  destruct (decide (right ≤ left)) as [Hle|Hlt]; [by apply Hstop|].
  cbn [reverse_loop]. rewrite bool_decide_eq_true_2 by lia.
  destruct (char_at_in_range s right) as (a & Ha & ->); [lia|].
  destruct (char_at_in_range s left) as (b & Hb & ->); [lia|].
  cbn [obind]. rewrite store_at_in_range by lia. cbn [obind].
  rewrite store_at_in_range by (rewrite length_insert; lia). cbn [obind].
  destruct (IH (<[Z.to_nat right := b]> (<[Z.to_nat left := a]> s))
              (left + 1) (right - 1))
    as (r & -> & Hlen & Hlk); [rewrite ?length_insert; lia..|].
  rewrite !length_insert in Hlen.
  exists r. split_and!; [done..|].
  intros k. rewrite Hlk.
  destruct (decide (left + 1 ≤ Z.of_nat k ≤ right - 1)) as [Hmid|Hout].
  { rewrite !bool_decide_eq_true_2 by lia.
    rewrite !list_lookup_insert_ne by lia. f_equal. lia. }
  rewrite (bool_decide_eq_false_2 _ Hout).
  destruct (decide (k = Z.to_nat right)) as [->|Hkr].
  - rewrite bool_decide_eq_true_2 by lia.
    rewrite list_lookup_insert_eq by (rewrite length_insert; lia).
    rewrite <- Hb. f_equal. lia.
  - rewrite (list_lookup_insert_ne _ (Z.to_nat right)) by lia.
    destruct (decide (k = Z.to_nat left)) as [->|Hkl].
    + rewrite bool_decide_eq_true_2 by lia.
      rewrite list_lookup_insert_eq by lia.
      rewrite <- Ha. f_equal. lia.
    + rewrite bool_decide_eq_false_2 by lia.
      rewrite list_lookup_insert_ne by lia. done.
Qed.

Lemma reverse_string_eq s : reverse_string s = Returned (reverse s).
Proof.
  unfold reverse_string. cbn zeta.
  destruct (reverse_loop_spec (List.length s) s 0 (Z.of_nat (List.length s) - 1))
    as (r & -> & Hlen & Hlk); [lia..|].
  f_equal. apply list_eq. intros k. rewrite Hlk.
  destruct (decide (k < List.length s)%nat) as [Hk|Hk].
  - rewrite bool_decide_eq_true_2 by lia.
    rewrite reverse_lookup by done. f_equal. lia.
  - rewrite bool_decide_eq_false_2 by lia.
    rewrite !lookup_ge_None_2; [done|rewrite length_reverse; lia|lia].
Qed.

(** Property X11. [reverse_string] returns on every list, the empty one
    included, and the list is then the original one read backwards. *)
Theorem reverse_string_reverses s :
  reverse_string s = Returned (reverse s)
  ∧ ∀ k x, s !! k = Some x → reverse s !! (List.length s - S k)%nat = Some x.
Proof.
  split; [apply reverse_string_eq|].
  intros k x Hx. pose proof (lookup_lt_Some _ _ _ Hx) as Hk.
  rewrite reverse_lookup by lia. rewrite <- Hx. f_equal. lia.
Qed.

(** Property X12. Reversing twice gives the list back. *)
Theorem reverse_string_twice s :
  obind (reverse_string s) reverse_string = Returned s.
Proof.
  rewrite reverse_string_eq. cbn [obind].
  rewrite reverse_string_eq, reverse_involutive. done.
Qed.

End ReverseStringFacts.

Section PalindromeMore.

Context {C L : Type} `{EqDecision L}.
Context (isalnum : C → bool) (lower : C → L).
Implicit Types (s t : list C).

Local Abbreviation F := (alnum_lowered isalnum lower).

Lemma alnum_lowered_reverse s : F (reverse s) = reverse (F s).
Proof. unfold alnum_lowered. by rewrite filter_reverse, fmap_reverse. Qed.

Lemma alnum_lowered_app s t : F (s ++ t) = F s ++ F t.
Proof. unfold alnum_lowered. by rewrite filter_app, fmap_app. Qed.

(** Property X13. The verdict depends on the lowered alphanumeric characters
    only: punctuation, spaces and case never matter. *)
Theorem is_palindrome_ignores_the_rest s t :
  alnum_lowered isalnum lower s = alnum_lowered isalnum lower t →
  is_palindrome isalnum lower s = is_palindrome isalnum lower t.
Proof.
  intros Heq. rewrite !is_palindrome_decides, Heq. done.
Qed.

(** Property X14. Reversing a list with [reverse_string] does not change the
    verdict of [is_palindrome]. *)
Theorem is_palindrome_of_reversed s :
  obind (reverse_string s) (is_palindrome isalnum lower)
  = is_palindrome isalnum lower s.
Proof.
  rewrite reverse_string_eq. cbn [obind].
  rewrite !is_palindrome_decides, alnum_lowered_reverse, reverse_involutive.
  f_equal. apply bool_decide_ext. split; intros Heq; by rewrite <- Heq at 1.
Qed.

(** Property X15. A list followed by its mirror image, with or without a
    middle character, is always accepted. *)
Theorem is_palindrome_of_mirrored s :
  is_palindrome isalnum lower (s ++ reverse s) = Returned true
  ∧ ∀ c, is_palindrome isalnum lower (s ++ c :: reverse s) = Returned true.
Proof.
  split; [|intros c]; rewrite is_palindrome_decides; f_equal;
    apply bool_decide_eq_true_2.
  - rewrite alnum_lowered_app, alnum_lowered_reverse, reverse_app,
      reverse_involutive. done.
  - rewrite (cons_middle c), !alnum_lowered_app, alnum_lowered_reverse,
      !reverse_app, reverse_involutive, <- app_assoc.
    f_equal. f_equal. apply reads_same_short.
    apply alnum_lowered_one.
Qed.

End PalindromeMore.

Section RemoveDuplicatesMore.

Context {C : Type} `{Countable C}.
Implicit Types (s t p : list C) (c : C).

Local Abbreviation first_after p s :=
  (omap (λ i : nat,
           c ← s%list !! i;
           if bool_decide (c ∈ p ++ take i s) then None else Some c)
        (seq 0 (List.length s))).

Lemma first_after_NoDup p s :
  NoDup s → (∀ c, c ∈ s → c ∉ p) → first_after p s = s.
Proof.
  revert p. induction s as [|c s IH]; intros p Hnd Hp; [done|].
  apply NoDup_cons in Hnd as [Hc Hnd].
  rewrite first_after_cons, bool_decide_eq_false_2
    by (apply Hp; left).
  cbn [app]. f_equal. apply IH; [done|].
  intros c' Hc'. rewrite elem_of_app, list_elem_of_singleton.
  intros [Hin| ->]; [|done]. by apply (Hp c'); [right|].
Qed.

Lemma first_after_sublist p s : first_after p s `sublist_of` s.
Proof.
  revert p. induction s as [|c s IH]; intros p; [done|].
  rewrite first_after_cons. case_bool_decide; cbn [app].
  - by apply sublist_cons.
  - by apply sublist_skip.
Qed.

Lemma first_after_app p s t :
  first_after p (s ++ t) = first_after p s ++ first_after (p ++ s) t.
Proof.
  revert p. induction s as [|c s IH]; intros p.
  - cbn [app]. rewrite app_nil_r. done.
  - rewrite <- app_comm_cons, !first_after_cons, IH, <- !app_assoc. done.
Qed.

Lemma first_after_filter p t :
  first_after p t = filter (λ c, c ∉ p) (first_occurrences t).
Proof.
  unfold first_occurrences. change (λ i : nat, c ← t !! i;
    if bool_decide (c ∈ take i t) then None else Some c)
    with (λ i : nat, c ← t !! i;
    if bool_decide (c ∈ [] ++ take i t) then None else Some c).
  revert p. induction t as [|c t IH]; intros p; [done|].
  rewrite !first_after_cons. rewrite (bool_decide_eq_false_2 (c ∈ [])) by
    apply not_elem_of_nil.
  rewrite (IH (p ++ [c])), (IH ([] ++ [c])).
  rewrite filter_app, list_filter_filter.
  assert (filter (λ c0, c0 ∉ p ++ [c]) (first_after [] t)
          = filter (λ x, (x ∉ p) ∧ (x ∉ [] ++ [c])) (first_after [] t)) as ->.
  { apply list_filter_iff. intros x. rewrite elem_of_app. cbn [app]. tauto. }
  f_equal. rewrite filter_cons, filter_nil.
  case_bool_decide; case_decide; done || tauto.
Qed.

(** Property X16. Removing duplicates a second time changes nothing. *)
Theorem remove_duplicates_idempotent s :
  remove_duplicates (remove_duplicates s) = remove_duplicates s.
Proof.
  rewrite !remove_duplicates_first_occurrences.
  apply (first_after_NoDup []); [apply (NoDup_first_after [] s)|].
  intros c _. apply not_elem_of_nil.
Qed.

(** Property X17. The result is its argument exactly when the argument has
    no repeated character. *)
Theorem remove_duplicates_fixes_duplicate_free s :
  remove_duplicates s = s ↔ NoDup s.
Proof.
  rewrite remove_duplicates_first_occurrences. split.
  - intros <-. apply (NoDup_first_after [] s).
  - intros Hnd. apply (first_after_NoDup []); [done|].
    intros c _. apply not_elem_of_nil.
Qed.

(** Property X18. The result keeps characters of the argument in the order
    they have there, dropping some: it is a subsequence, so it is never
    longer. *)
Theorem remove_duplicates_subsequence s :
  remove_duplicates s `sublist_of` s
  ∧ (List.length (remove_duplicates s) ≤ List.length s)%nat.
Proof.
  rewrite remove_duplicates_first_occurrences.
  pose proof (first_after_sublist [] s) as Hsub.
  split; [exact Hsub|]. by apply sublist_length.
Qed.

(** Property X19. On a concatenation, the result is the result for the first
    part followed by the result for the second part without the characters
    of the first. *)
Theorem remove_duplicates_app s t :
  remove_duplicates (s ++ t)
  = remove_duplicates s ++ filter (λ c, c ∉ s) (remove_duplicates t).
Proof.
  rewrite !remove_duplicates_first_occurrences.
  rewrite <- first_after_filter. apply (first_after_app [] s t).
Qed.

End RemoveDuplicatesMore.

Lemma is_palindrome_ignores_the_rest_witness :
  alnum_lowered ascii_isalnum ascii_lower
    (String.list_ascii_of_string "Was it a car?")
  = alnum_lowered ascii_isalnum ascii_lower
      (String.list_ascii_of_string "wasitacar")
  ∧ is_palindrome ascii_isalnum ascii_lower
      (String.list_ascii_of_string "Was it a car?")
    = is_palindrome ascii_isalnum ascii_lower
        (String.list_ascii_of_string "wasitacar").
Proof.
  split; [reflexivity|].
  apply (is_palindrome_ignores_the_rest ascii_isalnum ascii_lower).
  reflexivity.
Defined.

End StrUtilMore.
